(** * word_enumerator: a shallow embedding of [word_enumerator.py]

    The combinatorial core of the script is embedded function by function:
    [build_charset], [total_combinations], [enumerate_all], [sample_random]
    and the cap check of [main].  Python integers are [Z], a [str] is the
    list of its code points, a generator is the trace it produces when it is
    drained, and the secure random source is an explicit tape of draws. *)

From Stdlib Require Import Ascii String.
From Stdlib Require Import ZArith List Bool Lia Sorted.
Import ListNotations.

Local Open Scope Z_scope.

(** ** Python values *)

(** A character is a Unicode code point; a [str] is the sequence of its
    code points. *)
Definition char := N.
Definition str := list char.

(** A string literal of the source, as a [str]. *)
Definition lit (s : string) : str := map N_of_ascii (list_ascii_of_string s).

(** The exceptions the embedded functions can raise, and the outcome of a
    call that either returns or raises. *)
Inductive pyexn : Type :=
| ValueError (msg : string)
| IndexError (msg : string).

Inductive result (A : Type) : Type :=
| Ok (a : A)
| Raise (e : pyexn).

Arguments Ok {A} a.
Arguments Raise {A} e.

(** [not s] for a sequence [s]. *)
Definition is_empty {A} (s : list A) : bool :=
  match s with [] => true | _ :: _ => false end.

(** [range(lo, hi)] over the integers: [lo, lo+1, ..., hi-1], empty when
    [hi <= lo]. *)
Definition range (lo hi : Z) : list Z :=
  map (fun i => lo + Z.of_nat i) (seq 0 (Z.to_nat (hi - lo))).

(** ** Insertion-ordered dictionaries

    [dict.fromkeys] keeps one entry per key, in the order in which the keys
    were first inserted; an entry that is set again keeps its position. *)
Module Dict.

Definition t (V : Type) := list (char * V).

Fixpoint contains {V} (d : t V) (k : char) : bool :=
  match d with
  | [] => false
  | (k', _) :: d' => if N.eqb k' k then true else contains d' k
  end.

Fixpoint replace {V} (d : t V) (k : char) (v : V) : t V :=
  match d with
  | [] => []
  | (k', v') :: d' =>
      if N.eqb k' k then (k', v) :: d' else (k', v') :: replace d' k v
  end.

(** [d[k] = v] *)
Definition setitem {V} (d : t V) (k : char) (v : V) : t V :=
  if contains d k then replace d k v else d ++ [(k, v)].

Definition keys {V} (d : t V) : list char := map fst d.

(** [dict.fromkeys(iterable)]: every key mapped to [None]. *)
Definition fromkeys (iterable : str) : t unit :=
  fold_left (fun d k => setitem d k tt) iterable [].

End Dict.

(** ** [build_charset] *)

Definition ascii_lowercase : str := lit "abcdefghijklmnopqrstuvwxyz".
Definition ascii_uppercase : str := lit "ABCDEFGHIJKLMNOPQRSTUVWXYZ".
Definition digits : str := lit "0123456789".
Definition common_specials : str := lit "!@#$%^&*()-_=+[]{};:,.<>/?".

(** The string joined from [parts] before duplicates are removed. *)
Definition charset_parts (use_lower use_upper use_digits use_special : bool)
    (extra_special : str) : list str :=
  let parts := [] in
  let parts := if use_lower then parts ++ [ascii_lowercase] else parts in
  let parts := if use_upper then parts ++ [ascii_uppercase] else parts in
  let parts := if use_digits then parts ++ [digits] else parts in
  let parts :=
    if use_special then parts ++ [common_specials ++ extra_special]
    else parts in
  parts.

Definition build_charset (use_lower use_upper use_digits use_special : bool)
    (extra_special : str) : str :=
  let charset := concat (charset_parts use_lower use_upper use_digits
                           use_special extra_special) in
  Dict.keys (Dict.fromkeys charset).

(** ** [total_combinations] *)

(** [pow(b, e)] on integers.  For a negative exponent Python leaves the
    integers (a float, or [ZeroDivisionError] when [b] is 0): [None]. *)
Definition pow_int (b e : Z) : option Z :=
  if e <? 0 then None else Some (b ^ e).

(** [total += pow(charset_len, L)] *)
Definition add_pow (charset_len : Z) (total : option Z) (L : Z) : option Z :=
  match total with
  | None => None
  | Some t =>
      match pow_int charset_len L with
      | None => None
      | Some p => Some (t + p)
      end
  end.

(** The result is [Some] of the returned integer; [None] would be a run that
    raises or leaves the integers. *)
Definition total_combinations (charset_len min_len max_len : Z) : option Z :=
  if (charset_len <=? 0) || (min_len <? 1) || (max_len <? min_len) then Some 0
  else fold_left (add_pow charset_len) (range min_len (max_len + 1)) (Some 0).

(** ** Generators

    A generator function runs its body only when it is iterated.  Its run is
    the sequence of values it yields, in order, followed by either normal
    exhaustion or an exception that escapes the body. *)
Module Gen.

Record trace (A : Type) : Type := mk {
  yielded : list A;
  raised : option pyexn
}.

Arguments mk {A} yielded raised.
Arguments yielded {A} t.
Arguments raised {A} t.

(** The body returns without yielding. *)
Definition stop {A} : trace A := mk [] None.

(** [raise e] *)
Definition throw {A} (e : pyexn) : trace A := mk [] (Some e).

(** [for x in xs: yield x] *)
Definition yield_from {A} (xs : list A) : trace A := mk xs None.

(** [t1] followed by [t2]; an exception of [t1] ends the run. *)
Definition andthen {A} (t1 t2 : trace A) : trace A :=
  match raised t1 with
  | Some e => t1
  | None => mk (yielded t1 ++ yielded t2) (raised t2)
  end.

(** [for i in items: body(i)] *)
Fixpoint for_each {I A} (items : list I) (body : I -> trace A) : trace A :=
  match items with
  | [] => stop
  | i :: rest => andthen (body i) (for_each rest body)
  end.

(** Calling a generator function runs none of its body: the call returns
    a generator object, which holds the run still to come, and cannot
    raise. *)
Definition call {A} (body : trace A) : result (trace A) := Ok body.

(** What [next(g)] gives: the next value with the generator left behind,
    [StopIteration], or the exception that escapes the body. *)
Inductive resumed (A : Type) : Type :=
| Item (a : A) (g : trace A)
| StopIteration
| Error (e : pyexn).

Arguments Item {A} a g.
Arguments StopIteration {A}.
Arguments Error {A} e.

Definition next {A} (g : trace A) : resumed A :=
  match yielded g with
  | a :: rest => Item a (mk rest (raised g))
  | [] =>
      match raised g with
      | Some e => Error e
      | None => StopIteration
      end
  end.

End Gen.

(** ** [itertools.product]

    The library documents [product(iterable, repeat=n)] as: [pools] is [n]
    copies of the iterable, [result] starts as the list holding the empty
    list, and for each [pool] in [pools] it becomes
    [[x+[y] for x in result for y in pool]]; a negative [repeat] is
    rejected. *)
Definition product_step {A} (result : list (list A)) (pool : list A)
    : list (list A) :=
  flat_map (fun x => map (fun y => x ++ [y]) pool) result.

Definition product {A} (iterable : list A) (repeat : Z)
    : result (list (list A)) :=
  if repeat <? 0 then Raise (ValueError "repeat argument cannot be negative")
  else
    let pools := List.repeat iterable (Z.to_nat repeat) in
    Ok (fold_left product_step pools [[]]).

(** [sep.join(items)] with the empty separator. *)
Definition join (items : list char) : str := items.

(** ** [enumerate_all] *)

Definition enumerate_all (charset : str) (min_len max_len : Z)
    : Gen.trace str :=
  if is_empty charset then
    Gen.throw
      (ValueError "Charset is empty. Enable at least one character class.")
  else if (min_len <? 1) || (max_len <? min_len) then
    Gen.throw (ValueError "Invalid length range.")
  else
    Gen.for_each (range min_len (max_len + 1)) (fun L =>
      match product charset L with
      | Raise e => Gen.throw e
      | Ok tups => Gen.yield_from (map join tups)
      end).

(** The call [enumerate_all(charset, min_len, max_len)] itself, which
    hands back the generator. *)
Definition enumerate_all_call (charset : str) (min_len max_len : Z)
    : result (Gen.trace str) :=
  Gen.call (enumerate_all charset min_len max_len).

(** ** [sample_random]

    The system's random source is a tape of draws: [entropy i] is the raw
    value of the [i]-th draw of the process.  A computation that draws takes
    the position on the tape and returns the next position with its
    outcome. *)
Module Rand.

Definition t (A : Type) : Type := nat -> result A * nat.

Definition ret {A} (a : A) : t A := fun pos => (Ok a, pos).

Definition raise {A} (e : pyexn) : t A := fun pos => (Raise e, pos).

Definition bind {A B} (m : t A) (k : A -> t B) : t B :=
  fun pos =>
    match m pos with
    | (Ok a, pos') => k a pos'
    | (Raise e, pos') => (Raise e, pos')
    end.

(** [[body(i) for i in items]] *)
Fixpoint for_list {I A} (items : list I) (body : I -> t A) : t (list A) :=
  match items with
  | [] => ret []
  | i :: rest =>
      bind (body i) (fun x =>
      bind (for_list rest body) (fun xs => ret (x :: xs)))
  end.

End Rand.

Section Sampler.

Variable entropy : nat -> nat.

(** [secrets.randbelow(n)] for [n > 0]: one draw, below [n]. *)
Definition randbelow (n : nat) : Rand.t nat :=
  fun pos => (Ok (Nat.modulo (entropy pos) n), S pos).

(** [secrets.choice(seq)] *)
Definition choice (seq : str) : Rand.t char :=
  if is_empty seq then
    Rand.raise (IndexError "Cannot choose from an empty sequence")
  else
    Rand.bind (randbelow (List.length seq)) (fun i =>
    Rand.ret (nth i seq 0%N)).

Definition sample_random (charset : str) (length count : Z)
    : Rand.t (list str) :=
  if is_empty charset then
    Rand.raise
      (ValueError "Charset is empty. Enable at least one character class.")
  else
    Rand.for_list (range 0 count) (fun _ =>
      Rand.bind
        (Rand.for_list (range 0 length) (fun _ => choice charset))
        (fun chars => Rand.ret (join chars))).

End Sampler.

(** ** Integers in messages

    CPython converts an [int] to its decimal digits only up to
    [sys.int_max_str_digits] digits, 4300 by default; [str], [format] and
    f-strings raise [ValueError] beyond.  The digits themselves are not
    modelled, only whether the conversion goes through.  A value of [len]
    is at most [sys.maxsize] and always converts. *)
Definition int_max_str_digits : Z := 4300.

(** The least magnitude with more digits than the limit. *)
Definition digit_limit : Z := 10 ^ int_max_str_digits.

(** [z] has at most [int_max_str_digits] decimal digits. *)
Definition printable (z : Z) : Prop := Z.abs z < digit_limit.

Definition format_int (z : Z) : result unit :=
  if Z.abs z <? digit_limit then Ok tt
  else
    Raise
      (ValueError
         "Exceeds the limit (4300 digits) for integer string conversion").

(** ** The cap check of [main] *)

(** What [main] decides from [total], [args.cap] and [args.force] before it
    enumerates. *)
Inductive gate_outcome : Type :=
| NothingToDo
| Refuse (total cap : Z)
| Proceed.

Definition gate (total cap : Z) (force : bool) : gate_outcome :=
  if total =? 0 then NothingToDo
  else if (total >? cap) && negb force then Refuse total cap
  else Proceed.

(** The messages [main] prints on the error stream in this part. *)
Inductive diagnostic : Type :=
| MsgNothingToDo
| MsgRefusing (total cap : Z).

(** What a run of [main] leaves behind: the value it returns ([None] when an
    exception escapes), the diagnostics, and the words handed to the
    writer. *)
Record outcome : Type := {
  returned : option Z;
  stderr : list diagnostic;
  written : list str
}.

(** [main] from the cap check on, for the [total] computed before it. *)
Definition main_enumerate (charset : str) (min_len max_len : Z)
    (total cap : Z) (force : bool) : outcome :=
  match gate total cap force with
  | NothingToDo =>
      {| returned := Some 1; stderr := [MsgNothingToDo]; written := [] |}
  | Refuse t c =>
      match format_int t, format_int c with
      | Ok _, Ok _ =>
          {| returned := Some 1; stderr := [MsgRefusing t c];
             written := [] |}
      | _, _ => {| returned := None; stderr := []; written := [] |}
      end
  | Proceed =>
      let run := enumerate_all charset min_len max_len in
      {| returned := match Gen.raised run with
                     | None => Some 0
                     | Some _ => None
                     end;
         stderr := [];
         written := Gen.yielded run |}
  end.

(** ** [main]

    [parse_args] hands [main] a namespace; its fields are the record
    [args], with [None] for an option that was not given.  [main] is
    followed from there: what it returns, what it prints on the two
    streams, what it writes to the output file and how many draws it takes
    from the random source.  The output file is taken to open and accept
    every write.  A command line that [parse_args] rejects ends the
    process inside [parse_args] and does not reach this point. *)
Record args : Type := {
  arg_min : option Z;
  arg_max : option Z;
  arg_length : option Z;
  arg_lower : bool;
  arg_upper : bool;
  arg_digits : bool;
  arg_special : bool;
  arg_extra_special : str;
  arg_out : option str;
  arg_sample : Z;
  arg_cap : Z;
  arg_force : bool;
  arg_show_stats : bool
}.

(** [if args.out]: a path that is given and not empty. *)
Definition out_path (a : args) : option str :=
  match arg_out a with
  | Some (c :: path) => Some (c :: path)
  | _ => None
  end.

(** The lines [main] prints on standard output. *)
Inductive stdout_line : Type :=
| OutCharset (size : Z) (charset : str)
| OutLengthRange (min_len max_len : Z)
| OutTotal (total : Z)
| OutWord (word : str)
| OutWroteSamples (count : Z) (path : str)
| OutEnumerationComplete (items : Z) (path : str).

(** The lines [main] prints on the error stream. *)
Inductive stderr_line : Type :=
| ErrLengthSpec
| ErrNoClasses
| ErrSampleLength
| ErrCap (d : diagnostic).

(** A run of [main]: the value returned ([None] when an exception
    escapes), the two streams, the file written (its path and its lines)
    and the number of draws taken. *)
Record effects : Type := {
  status : option Z;
  printed : list stdout_line;
  errors : list stderr_line;
  file : option (str * list str);
  draws : nat
}.

(** [print(msg, file=sys.stderr); return 1] *)
Definition fail_with (msg : stderr_line) : effects :=
  {| status := Some 1; printed := []; errors := [msg]; file := None;
     draws := O |}.

(** An exception escapes [main] after it printed nothing. *)
Definition escaped : effects :=
  {| status := None; printed := []; errors := []; file := None;
     draws := O |}.

(** The length resolution at the head of [main]. *)
Definition resolve_lengths (a : args) : option (Z * Z) :=
  match arg_length a with
  | Some l => Some (l, l)
  | None =>
      match arg_min a, arg_max a with
      | Some mn, Some mx => Some (mn, mx)
      | _, _ => None
      end
  end.

(** The sampling branch of [main]. *)
Definition main_sample (entropy : nat -> nat) (a : args) (charset : str)
    : effects :=
  match arg_length a with
  | None => fail_with ErrSampleLength
  | Some length =>
      match sample_random entropy charset length (arg_sample a) O with
      | (Raise _, d) =>
          {| status := None; printed := []; errors := []; file := None;
             draws := d |}
      | (Ok samples, d) =>
          match out_path a with
          | Some path =>
              {| status := Some 0;
                 printed :=
                   [OutWroteSamples (Z.of_nat (List.length samples)) path];
                 errors := [];
                 file := Some (path, samples);
                 draws := d |}
          | None =>
              {| status := Some 0;
                 printed := map OutWord samples;
                 errors := [];
                 file := None;
                 draws := d |}
          end
      end
  end.

(** The cap check and the streaming loop of [main], with the writer
    resolved. *)
Definition main_stream (a : args) (charset : str) (min_len max_len total : Z)
    : effects :=
  let run :=
    main_enumerate charset min_len max_len total (arg_cap a) (arg_force a) in
  match gate total (arg_cap a) (arg_force a) with
  | Proceed =>
      match out_path a with
      | Some path =>
          let i := Z.of_nat (List.length (written run)) in
          match returned run, format_int i with
          | Some r, Ok _ =>
              {| status := Some r;
                 printed := [OutEnumerationComplete i path];
                 errors := [];
                 file := Some (path, written run);
                 draws := O |}
          | _, _ =>
              {| status := None; printed := []; errors := [];
                 file := Some (path, written run); draws := O |}
          end
      | None =>
          {| status := returned run;
             printed := map OutWord (written run);
             errors := [];
             file := None;
             draws := O |}
      end
  | _ =>
      {| status := returned run; printed := [];
         errors := map ErrCap (stderr run); file := None; draws := O |}
  end.

(** The [--show-stats] branch of [main]: three lines, the second with
    the two bounds, the third with the total. *)
Definition main_stats (charset : str) (min_len max_len total : Z) : effects :=
  let size := Z.of_nat (List.length charset) in
  match format_int min_len, format_int max_len with
  | Ok _, Ok _ =>
      match format_int total with
      | Ok _ =>
          {| status := Some 0;
             printed :=
               [OutCharset size charset;
                OutLengthRange min_len max_len;
                OutTotal total];
             errors := [];
             file := None;
             draws := O |}
      | Raise _ =>
          {| status := None;
             printed :=
               [OutCharset size charset; OutLengthRange min_len max_len];
             errors := [];
             file := None;
             draws := O |}
      end
  | _, _ =>
      {| status := None; printed := [OutCharset size charset];
         errors := []; file := None; draws := O |}
  end.

(** [main], from the namespace [parse_args()] returned. *)
Definition main (entropy : nat -> nat) (a : args) : effects :=
  match resolve_lengths a with
  | None => fail_with ErrLengthSpec
  | Some (min_len, max_len) =>
      let charset :=
        build_charset (arg_lower a) (arg_upper a) (arg_digits a)
          (arg_special a) (arg_extra_special a) in
      if is_empty charset then fail_with ErrNoClasses
      else
        match
          total_combinations (Z.of_nat (List.length charset)) min_len max_len
        with
        | None =>
            {| status := None; printed := []; errors := []; file := None;
               draws := O |}
        | Some total =>
            if arg_show_stats a then
              main_stats charset min_len max_len total
            else if arg_sample a >? 0 then main_sample entropy a charset
            else main_stream a charset min_len max_len total
        end
  end.

(** The alphabet [main] builds from the class flags. *)
Definition args_charset (a : args) : str :=
  build_charset (arg_lower a) (arg_upper a) (arg_digits a) (arg_special a)
    (arg_extra_special a).

(** The words a run hands out: the lines of its file, or else the words
    among the lines it printed. *)
Definition printed_words (lines : list stdout_line) : list str :=
  flat_map (fun l => match l with OutWord w => [w] | _ => [] end) lines.

Definition emitted (e : effects) : list str :=
  match file e with
  | Some (_, ws) => ws
  | None => printed_words (printed e)
  end.

(** The default cap for full enumeration. *)
Definition DEFAULT_MAX : Z := 1000000.

(** The namespace of a command line that gives no option, with the
    defaults of [parse_args]. *)
Definition default_args : args :=
  {| arg_min := None; arg_max := None; arg_length := None;
     arg_lower := false; arg_upper := false; arg_digits := false;
     arg_special := false; arg_extra_special := []; arg_out := None;
     arg_sample := 0; arg_cap := DEFAULT_MAX; arg_force := false;
     arg_show_stats := false |}.

(** [--length 2 --digits --cap 100] *)
Definition example_enumerate : args :=
  {| arg_min := None; arg_max := None; arg_length := Some 2;
     arg_lower := false; arg_upper := false; arg_digits := true;
     arg_special := false; arg_extra_special := []; arg_out := None;
     arg_sample := 0; arg_cap := 100; arg_force := false;
     arg_show_stats := false |}.

(** [--length 3 --digits --sample 2 --cap 5 --out o.txt] *)
Definition example_sample : args :=
  {| arg_min := None; arg_max := None; arg_length := Some 3;
     arg_lower := false; arg_upper := false; arg_digits := true;
     arg_special := false; arg_extra_special := [];
     arg_out := Some (lit "o.txt");
     arg_sample := 2; arg_cap := 5; arg_force := false;
     arg_show_stats := false |}.

(** [--min 3 --max 1 --lower --show-stats --sample 4] *)
Definition example_stats : args :=
  {| arg_min := Some 3; arg_max := Some 1; arg_length := None;
     arg_lower := true; arg_upper := false; arg_digits := false;
     arg_special := false; arg_extra_special := []; arg_out := None;
     arg_sample := 4; arg_cap := DEFAULT_MAX; arg_force := false;
     arg_show_stats := true |}.

(** ** Reference definitions

    The mathematical objects the functions are compared with. *)

(** The sum of [n^L] for the [k] lengths [L = a, a+1, ..., a+k-1]. *)
Fixpoint sum_pow (n a : Z) (k : nat) : Z :=
  match k with
  | O => 0
  | S k' => n ^ a + sum_pow n (a + 1) k'
  end.

(** The [L] digits of [k] in base [n], most significant first: a counter
    whose last position advances fastest. *)
Fixpoint index_digits (n L k : nat) : list nat :=
  match L with
  | O => []
  | S L' => index_digits n L' (Nat.div k n) ++ [Nat.modulo k n]
  end.

(** The word whose symbols stand at the positions [index_digits] gives. *)
Definition word_at (alphabet : str) (L k : nat) : str :=
  map (fun d => nth d alphabet 0%N) (index_digits (List.length alphabet) L k).

(** All words of length [L], the [k]-th one spelling [k] in base
    [|alphabet|]. *)
Definition odometer (alphabet : str) (L : nat) : list str :=
  map (word_at alphabet L) (seq 0 (Nat.pow (List.length alphabet) L)).

(** Lexicographic order on position lists of one length. *)
Inductive lex_lt : list nat -> list nat -> Prop :=
| lex_here x y xs ys :
    (x < y)%nat -> List.length xs = List.length ys ->
    lex_lt (x :: xs) (y :: ys)
| lex_next x xs ys : lex_lt xs ys -> lex_lt (x :: xs) (x :: ys).

(** The position of the first occurrence of [c] in the alphabet. *)
Fixpoint rank (alphabet : str) (c : char) : nat :=
  match alphabet with
  | [] => O
  | a :: rest => if N.eqb a c then O else S (rank rest c)
  end.

(** Lexicographic order on words by the alphabet's symbol ordering. *)
Definition word_lt (alphabet : str) (w1 w2 : str) : Prop :=
  lex_lt (map (rank alphabet) w1) (map (rank alphabet) w2).

(** The enabled classes in their fixed order: lowercase, uppercase, digits,
    then the fixed special set followed by the extra characters. *)
Definition classes_in_order (use_lower use_upper use_digits use_special : bool)
    (extra_special : str) : str :=
  (if use_lower then ascii_lowercase else [])
  ++ (if use_upper then ascii_uppercase else [])
  ++ (if use_digits then digits else [])
  ++ (if use_special then common_specials ++ extra_special else []).

(** Removal of duplicates that keeps the first occurrence of each symbol. *)
Fixpoint keep_first (s : str) : str :=
  match s with
  | [] => []
  | c :: rest => c :: filter (fun x => negb (N.eqb x c)) (keep_first rest)
  end.

(** * Properties *)

(** ** [range] *)

Lemma range_nil (lo hi : Z) : hi <= lo -> range lo hi = [].
Proof.
  intros H. unfold range.
  replace (Z.to_nat (hi - lo)) with O by lia. reflexivity.
Qed.

Lemma range_cons (lo hi : Z) :
  lo < hi -> range lo hi = lo :: range (lo + 1) hi.
Proof.
  intros H. unfold range.
  replace (Z.to_nat (hi - lo)) with (S (Z.to_nat (hi - (lo + 1)))) by lia.
  cbn [seq map]. f_equal; [lia|].
  rewrite <- seq_shift, map_map.
  apply map_ext. intros i. lia.
Qed.

Lemma range_length (lo hi : Z) :
  List.length (range lo hi) = Z.to_nat (hi - lo).
Proof. unfold range. now rewrite length_map, length_seq. Qed.

Lemma range_In (lo hi x : Z) : In x (range lo hi) <-> lo <= x < hi.
Proof.
  unfold range. rewrite in_map_iff. split.
  - intros (i & <- & Hi). apply in_seq in Hi. lia.
  - intros H. exists (Z.to_nat (x - lo)). split; [lia|].
    apply in_seq. lia.
Qed.

(** ** [total_combinations] *)

Section Counter.

Variable n : Z.

Lemma pow_int_nonneg (e : Z) : 0 <= e -> pow_int n e = Some (n ^ e).
Proof.
  intros H. unfold pow_int.
  destruct (Z.ltb_spec e 0) as [Hlt|_]; [lia | reflexivity].
Qed.

(** The loop of [total_combinations], started at [acc], over [k] lengths
    from [a] on. *)
Lemma fold_add_pow (k : nat) :
  forall a acc,
    0 <= a ->
    fold_left (add_pow n) (range a (a + Z.of_nat k)) (Some acc)
    = Some (acc + sum_pow n a k).
Proof.
  induction k as [|k IH]; intros a acc Ha.
  - rewrite range_nil by lia. cbn. f_equal. lia.
  - rewrite range_cons by lia. cbn [fold_left sum_pow].
    unfold add_pow at 2. rewrite pow_int_nonneg by assumption.
    replace (a + Z.of_nat (S k)) with (a + 1 + Z.of_nat k) by lia.
    rewrite IH by lia. f_equal. lia.
Qed.

Lemma sum_pow_nonneg (k : nat) :
  forall a, 0 <= n -> 0 <= a -> 0 <= sum_pow n a k.
Proof.
  induction k as [|k IH]; intros a Hn Ha; cbn [sum_pow]; [lia|].
  specialize (IH (a + 1) Hn ltac:(lia)).
  pose proof (Z.pow_nonneg n a Hn). lia.
Qed.

Lemma sum_pow_pos (k : nat) (a : Z) :
  0 < n -> 0 <= a -> 0 < sum_pow n a (S k).
Proof.
  intros Hn Ha. cbn [sum_pow].
  pose proof (sum_pow_nonneg k (a + 1) ltac:(lia) ltac:(lia)).
  pose proof (Z.pow_pos_nonneg n a Hn Ha). lia.
Qed.

(** The geometric sum in closed form. *)
Lemma sum_pow_geometric (k : nat) :
  forall a, 0 <= a ->
    (n - 1) * sum_pow n a k = n ^ (a + Z.of_nat k) - n ^ a.
Proof.
  induction k as [|k IH]; intros a Ha; cbn [sum_pow].
  - replace (a + Z.of_nat 0) with a by lia. lia.
  - rewrite Z.mul_add_distr_l, IH by lia.
    replace (a + Z.of_nat (S k)) with (a + 1 + Z.of_nat k) by lia.
    rewrite (Z.pow_add_r n a 1) by lia. rewrite Z.pow_1_r. lia.
Qed.

Lemma total_combinations_valid (a b : Z) :
  1 <= n -> 1 <= a <= b ->
  total_combinations n a b = Some (sum_pow n a (Z.to_nat (b - a + 1))).
Proof.
  intros Hn Hab. unfold total_combinations.
  destruct (Z.leb_spec n 0); [lia|].
  destruct (Z.ltb_spec a 1); [lia|].
  destruct (Z.ltb_spec b a); [lia|]. cbn [orb].
  replace (b + 1) with (a + Z.of_nat (Z.to_nat (b - a + 1))) by lia.
  rewrite fold_add_pow by lia. reflexivity.
Qed.

Lemma total_combinations_invalid (a b : Z) :
  n <= 0 \/ a < 1 \/ b < a -> total_combinations n a b = Some 0.
Proof.
  intros H. unfold total_combinations.
  destruct (Z.leb_spec n 0); [reflexivity|].
  destruct (Z.ltb_spec a 1); [reflexivity|].
  destruct (Z.ltb_spec b a); [reflexivity|]. lia.
Qed.

End Counter.

(** C2: for an alphabet size [n >= 1] and a range [1 <= a <= b],
    [total_combinations n a b] returns the exact sum of [n^L] for [L] from
    [a] to [b] over the unbounded integers: it satisfies the closed form of
    the geometric sum, it is [n^L] for the single length [L], and it is not
    reduced modulo any word size (for [n = 70] and [b = 20] it is above
    [2^63]). *)
Theorem total_combinations_exact (n a b : Z) :
  1 <= n -> 1 <= a <= b ->
  total_combinations n a b = Some (sum_pow n a (Z.to_nat (b - a + 1)))
  /\ (n - 1) * sum_pow n a (Z.to_nat (b - a + 1)) = n ^ (b + 1) - n ^ a
  /\ total_combinations n a a = Some (n ^ a)
  /\ total_combinations 70 20 20 = Some (70 ^ 20)
  /\ 2 ^ 63 < 70 ^ 20.
Proof.
  intros Hn Hab. split; [|split; [|split; [|split]]].
  - now apply total_combinations_valid.
  - rewrite sum_pow_geometric by lia. f_equal. f_equal. lia.
  - rewrite total_combinations_valid by lia.
    replace (Z.to_nat (a - a + 1)) with 1%nat by lia.
    cbn [sum_pow]. f_equal. lia.
  - vm_compute. reflexivity.
  - vm_compute. reflexivity.
Qed.

Lemma total_combinations_exact_witness :
  total_combinations 26 1 30 = Some (sum_pow 26 1 (Z.to_nat (30 - 1 + 1)))
  /\ (26 - 1) * sum_pow 26 1 (Z.to_nat (30 - 1 + 1)) = 26 ^ (30 + 1) - 26 ^ 1
  /\ total_combinations 26 1 1 = Some (26 ^ 1)
  /\ total_combinations 70 20 20 = Some (70 ^ 20)
  /\ 2 ^ 63 < 70 ^ 20.
Proof. apply (total_combinations_exact 26 1 30); lia. Defined.

(** C6: [total_combinations] always returns an integer, and that integer is
    0 exactly when [charset_len <= 0], [min_len < 1] or
    [max_len < min_len]; on a valid input it is strictly positive. *)
Theorem total_combinations_zero_iff (n a b : Z) :
  exists t,
    total_combinations n a b = Some t
    /\ (t = 0 <-> n <= 0 \/ a < 1 \/ b < a)
    /\ (1 <= n -> 1 <= a <= b -> 0 < t).
Proof.
  destruct (Z_le_gt_dec n 0) as [Hn|Hn];
    [|destruct (Z_lt_ge_dec a 1) as [Ha|Ha];
      [|destruct (Z_lt_ge_dec b a) as [Hb|Hb]]].
  1-3: exists 0; split;
    [apply total_combinations_invalid; lia | split; [split; lia | lia]].
  exists (sum_pow n a (Z.to_nat (b - a + 1))).
  assert (Hpos : 0 < sum_pow n a (Z.to_nat (b - a + 1))).
  { replace (Z.to_nat (b - a + 1)) with (S (Z.to_nat (b - a))) by lia.
    apply sum_pow_pos; lia. }
  split; [apply total_combinations_valid; lia|].
  split; [split; lia | intros; exact Hpos].
Qed.

Lemma total_combinations_zero_iff_witness :
  exists t,
    total_combinations 3 2 4 = Some t
    /\ (t = 0 <-> 3 <= 0 \/ 2 < 1 \/ 4 < 2)
    /\ (1 <= 3 -> 1 <= 2 <= 4 -> 0 < t).
Proof. exact (total_combinations_zero_iff 3 2 4). Defined.

(** ** The cap check *)

Lemma gate_cases (total cap : Z) (force : bool) :
  (total = 0 /\ gate total cap force = NothingToDo)
  \/ (total <> 0 /\ cap < total /\ force = false
      /\ gate total cap force = Refuse total cap)
  \/ (total <> 0 /\ (total <= cap \/ force = true)
      /\ gate total cap force = Proceed).
Proof.
  unfold gate.
  destruct (Z.eqb_spec total 0) as [H0|H0]; [now left | right].
  destruct (Z.gtb_spec total cap) as [Hgt|Hle]; cbn [andb].
  - destruct force; cbn [negb]; [right | left]; repeat split; auto; lia.
  - right. repeat split; auto.
Qed.

Lemma format_int_printable (z : Z) : printable z -> format_int z = Ok tt.
Proof.
  unfold printable, format_int. intros H.
  destruct (Z.ltb_spec (Z.abs z) digit_limit); [reflexivity | lia].
Qed.

Lemma format_int_unprintable (z : Z) :
  ~ printable z -> exists e, format_int z = Raise e.
Proof.
  unfold printable, format_int. intros H.
  destruct (Z.ltb_spec (Z.abs z) digit_limit); [lia | eexists; reflexivity].
Qed.

Lemma printable_dec (z : Z) : printable z \/ ~ printable z.
Proof. unfold printable. lia. Qed.

(** The decision of the cap check, and what it lets through: a total of 0
    is [NothingToDo]; otherwise a total above the cap without [force] is
    [Refuse] with the total and the cap; otherwise [Proceed].  Only
    [Proceed] runs the enumerator. *)
Lemma gate_decision (total cap : Z) (force : bool) :
  (total = 0 -> gate total cap force = NothingToDo)
  /\ (total <> 0 -> total > cap -> force = false ->
      gate total cap force = Refuse total cap)
  /\ (total <> 0 -> total <= cap \/ force = true ->
      gate total cap force = Proceed)
  /\ (forall charset min_len max_len,
        gate total cap force <> Proceed ->
        written (main_enumerate charset min_len max_len total cap force) = [])
  /\ (forall charset min_len max_len,
        gate total cap force = Proceed ->
        written (main_enumerate charset min_len max_len total cap force)
        = Gen.yielded (enumerate_all charset min_len max_len)).
Proof.
  split; [|split; [|split; [|split]]].
  - intros H. destruct (gate_cases total cap force)
      as [(_ & E)|[(N & _)|(N & _)]]; [exact E | lia | lia].
  - intros H0 Hgt Hf. destruct (gate_cases total cap force)
      as [(Z0 & _)|[(_ & _ & _ & E)|(_ & [Hle|Ht] & _)]];
      [lia | exact E | lia | congruence].
  - intros H0 Hor. destruct (gate_cases total cap force)
      as [(Z0 & _)|[(_ & Hlt & Hf & _)|(_ & _ & E)]];
      [lia | destruct Hor; [lia | congruence] | exact E].
  - intros charset min_len max_len NP. unfold main_enumerate.
    destruct (gate total cap force) as [|t c|];
      [reflexivity | | congruence].
    destruct (format_int t) as [[]|]; [|reflexivity].
    destruct (format_int c) as [[]|]; reflexivity.
  - intros charset min_len max_len E. unfold main_enumerate.
    rewrite E. reflexivity.
Qed.

(** What the refusal leaves behind: the message with the total and the
    cap when both can be printed, an escaping [ValueError] and no message
    otherwise. *)
Lemma main_enumerate_refusal (charset : str) (min_len max_len : Z)
    (total cap : Z) :
  total <> 0 -> total > cap ->
  (printable total -> printable cap ->
   main_enumerate charset min_len max_len total cap false
   = {| returned := Some 1; stderr := [MsgRefusing total cap];
        written := [] |})
  /\ (~ printable total \/ ~ printable cap ->
      main_enumerate charset min_len max_len total cap false
      = {| returned := None; stderr := []; written := [] |}).
Proof.
  intros H0 Hgt. unfold main_enumerate.
  destruct (gate_cases total cap false)
    as [(Z0 & _)|[(_ & _ & _ & ->)|(_ & [Hle|Ht] & _)]];
    [lia | | lia | discriminate].
  split.
  - intros Ht Hc. now rewrite !format_int_printable.
  - intros [Ht|Hc].
    + destruct (format_int_unprintable total Ht) as (e & ->). reflexivity.
    + destruct (format_int_unprintable cap Hc) as (e & ->).
      destruct (format_int total) as [[]|]; reflexivity.
Qed.

(** C4: the cap check does not refuse with the total and the cap for
    every total.  For the ten digits and length 4300 the total is
    [10^4300], which has 4301 digits; the cap check decides to refuse, the
    refusal message cannot be formatted, and [main] ends in the escaping
    [ValueError] with nothing on the error stream and no value returned.
    No word is written. *)
Theorem refusal_beyond_digit_limit :
  total_combinations 10 4300 4300 = Some (10 ^ 4300)
  /\ gate (10 ^ 4300) DEFAULT_MAX false = Refuse (10 ^ 4300) DEFAULT_MAX
  /\ main_enumerate digits 4300 4300 (10 ^ 4300) DEFAULT_MAX false
     = {| returned := None; stderr := []; written := [] |}.
Proof.
  split; [vm_compute; reflexivity|].
  split; [vm_compute; reflexivity|].
  apply main_enumerate_refusal.
  - vm_compute. discriminate.
  - vm_compute. reflexivity.
  - left. unfold printable. vm_compute. discriminate.
Qed.

(** ** [build_charset] without the special class *)

(** C10: with [use_special] off, [extra_special] does not reach the
    alphabet: two calls that differ only in it return the same string, and
    with every class off the alphabet is empty whatever the extra
    characters are. *)
Theorem build_charset_extra_ignored (use_lower use_upper use_digits : bool)
    (e1 e2 : str) :
  build_charset use_lower use_upper use_digits false e1
  = build_charset use_lower use_upper use_digits false e2
  /\ build_charset false false false false e1 = [].
Proof.
  split; [|reflexivity].
  unfold build_charset, charset_parts.
  destruct use_lower, use_upper, use_digits; reflexivity.
Qed.

(** ** [enumerate_all]: the precondition checks *)

Lemma enumerate_all_invalid (charset : str) (min_len max_len : Z) :
  charset = [] \/ min_len < 1 \/ max_len < min_len ->
  exists msg,
    enumerate_all charset min_len max_len
    = Gen.mk [] (Some (ValueError msg)).
Proof.
  intros H. unfold enumerate_all.
  destruct charset as [|c cs]; cbn [is_empty].
  - eexists. reflexivity.
  - destruct H as [H|H]; [discriminate|].
    destruct (Z.ltb_spec min_len 1); cbn [orb].
    + eexists. reflexivity.
    + destruct (Z.ltb_spec max_len min_len); [|lia].
      eexists. reflexivity.
Qed.

(** C5: on an empty alphabet, on [min_len < 1] and on [max_len < min_len]
    the call of [enumerate_all] raises nothing and returns the generator;
    the first request for a word raises [ValueError], before any word is
    produced, and [main] then hands no word to its writer, whatever the
    cap check decided. *)
Theorem enumerate_all_rejects (charset : str) (min_len max_len : Z) :
  charset = [] \/ min_len < 1 \/ max_len < min_len ->
  exists g msg,
    enumerate_all_call charset min_len max_len = Ok g
    /\ Gen.next g = Gen.Error (ValueError msg)
    /\ Gen.yielded g = []
    /\ (forall total cap force,
          written (main_enumerate charset min_len max_len total cap force)
          = []).
Proof.
  intros H. destruct (enumerate_all_invalid charset min_len max_len H)
    as (msg & E).
  exists (enumerate_all charset min_len max_len), msg.
  split; [reflexivity|]. rewrite E.
  split; [reflexivity|]. split; [reflexivity|].
  intros total cap force.
  destruct (gate total cap force) eqn:Eg.
  - apply (gate_decision total cap force). rewrite Eg. discriminate.
  - apply (gate_decision total cap force). rewrite Eg. discriminate.
  - unfold main_enumerate. now rewrite Eg, E.
Qed.

Lemma enumerate_all_rejects_witness :
  exists g msg,
    enumerate_all_call (lit "ab") 0 2 = Ok g
    /\ Gen.next g = Gen.Error (ValueError msg)
    /\ Gen.yielded g = []
    /\ (forall total cap force,
          written (main_enumerate (lit "ab") 0 2 total cap force) = []).
Proof.
  apply (enumerate_all_rejects (lit "ab") 0 2). right. left. lia.
Defined.

(** The call with an empty alphabet raises no error: it returns a
    generator. *)
Lemma enumerate_all_call_not_eager :
  ~ (exists e, enumerate_all_call [] 1 2 = Raise e)
  /\ exists g, enumerate_all_call [] 1 2 = Ok g.
Proof.
  split.
  - intros (e & H). discriminate.
  - eexists. reflexivity.
Qed.

(** ** [sample_random] *)

Lemma is_empty_false {A} (s : list A) : s <> [] -> is_empty s = false.
Proof. destruct s; [congruence | reflexivity]. Qed.

Lemma nonempty_length {A} (s : list A) : s <> [] -> (0 < List.length s)%nat.
Proof. destruct s; [congruence | cbn; lia]. Qed.

Section SamplerFacts.

Variable entropy : nat -> nat.
Variable charset : str.
Hypothesis charset_nonempty : charset <> [].

Lemma choice_draws (pos : nat) :
  exists c,
    choice entropy charset pos = (Ok c, S pos) /\ In c charset.
Proof.
  unfold choice, Rand.bind, randbelow, Rand.ret.
  rewrite is_empty_false by assumption.
  eexists. split; [reflexivity|].
  apply nth_In. apply Nat.mod_upper_bound.
  pose proof (nonempty_length charset charset_nonempty). lia.
Qed.

(** One word: a draw per item, every symbol taken from the alphabet. *)
Lemma word_draws {I} (items : list I) :
  forall pos,
    exists w,
      Rand.for_list items (fun _ => choice entropy charset) pos
      = (Ok w, (pos + List.length items)%nat)
      /\ List.length w = List.length items
      /\ Forall (fun c => In c charset) w.
Proof.
  induction items as [|i items IH]; intros pos; cbn [Rand.for_list].
  - exists []. unfold Rand.ret. cbn. rewrite Nat.add_0_r. auto.
  - destruct (choice_draws pos) as (c & Ec & Hc).
    destruct (IH (S pos)) as (w & Ew & Hlen & Hall).
    exists (c :: w). unfold Rand.bind at 1. rewrite Ec.
    unfold Rand.bind at 1. rewrite Ew. unfold Rand.ret.
    cbn [List.length].
    split; [f_equal; lia | split; [congruence | constructor; auto]].
Qed.

(** The list of words: [m] draws for each of the items. *)
Lemma words_draws {I J} (outer : list I) (inner : list J) :
  forall pos,
    exists ws,
      Rand.for_list outer (fun _ =>
        Rand.bind
          (Rand.for_list inner (fun _ => choice entropy charset))
          (fun chars => Rand.ret (join chars))) pos
      = (Ok ws, (pos + List.length outer * List.length inner)%nat)
      /\ List.length ws = List.length outer
      /\ Forall (fun w => List.length w = List.length inner
                          /\ Forall (fun c => In c charset) w) ws.
Proof.
  induction outer as [|i outer IH]; intros pos; cbn [Rand.for_list].
  - exists []. unfold Rand.ret. cbn. rewrite Nat.add_0_r. auto.
  - destruct (word_draws inner pos) as (w & Ew & Hlen & Hall).
    destruct (IH (pos + List.length inner)%nat) as (ws & Ews & Hn & Hws).
    exists (w :: ws). unfold Rand.bind at 1. unfold Rand.bind at 1.
    rewrite Ew. unfold Rand.ret at 1. unfold Rand.bind at 1.
    rewrite Ews. unfold Rand.ret, join.
    cbn [List.length].
    split; [f_equal; lia | split; [congruence | constructor; auto]].
Qed.

Lemma sample_random_ok (length count : Z) (pos : nat) :
  exists ws,
    sample_random entropy charset length count pos
    = (Ok ws, (pos + Z.to_nat count * Z.to_nat length)%nat)
    /\ List.length ws = Z.to_nat count
    /\ Forall (fun w => List.length w = Z.to_nat length
                        /\ Forall (fun c => In c charset) w) ws.
Proof.
  unfold sample_random. rewrite is_empty_false by assumption.
  destruct (words_draws (range 0 count) (range 0 length) pos)
    as (ws & Ews & Hn & Hws).
  rewrite !range_length, !Z.sub_0_r in *.
  exists ws. auto.
Qed.

End SamplerFacts.

Lemma sample_random_empty (entropy : nat -> nat) (length count : Z)
    (pos : nat) :
  exists msg,
    sample_random entropy [] length count pos = (Raise (ValueError msg), pos).
Proof. eexists. reflexivity. Qed.

Lemma Forall_singleton_repeat (a : char) (w : str) :
  Forall (fun c => In c [a]) w -> w = List.repeat a (List.length w).
Proof.
  induction 1 as [|c w Hc _ IH]; [reflexivity|].
  cbn [List.length List.repeat]. rewrite <- IH.
  destruct Hc as [->|[]]. reflexivity.
Qed.

(** C8: for a non-empty alphabet, a length [L >= 1] and a count [>= 0],
    whatever the random source draws, [sample_random] returns exactly
    [count] words, each of exactly [L] symbols, each symbol a member of the
    alphabet, after [count * L] draws; a count of 0 gives the empty list;
    and over a one-symbol alphabet every word is that symbol [L] times, so
    for ["a"] and length 5 every word is ["aaaaa"]. *)
Theorem sample_random_shape (entropy : nat -> nat) (charset : str)
    (length count : Z) (pos : nat) :
  charset <> [] -> 1 <= length -> 0 <= count ->
  exists ws,
    sample_random entropy charset length count pos
    = (Ok ws, (pos + Z.to_nat count * Z.to_nat length)%nat)
    /\ Z.of_nat (List.length ws) = count
    /\ Forall (fun w => Z.of_nat (List.length w) = length
                        /\ Forall (fun c => In c charset) w) ws
    /\ (count = 0 -> ws = [])
    /\ (forall a, charset = [a] ->
          Forall (fun w => w = List.repeat a (Z.to_nat length)) ws)
    /\ (charset = lit "a" -> length = 5 ->
        Forall (fun w => w = lit "aaaaa") ws).
Proof.
  intros Hne HL Hc.
  destruct (sample_random_ok entropy charset Hne length count pos)
    as (ws & E & Hn & Hws).
  assert (Hone : forall a, charset = [a] ->
            Forall (fun w => w = List.repeat a (Z.to_nat length)) ws).
  { intros a ->. eapply Forall_impl; [|exact Hws]. cbn.
    intros w (Hw & Hin). rewrite <- Hw.
    now apply Forall_singleton_repeat. }
  exists ws. split; [exact E|]. split; [lia|].
  split; [|split; [|split; [exact Hone|]]].
  - eapply Forall_impl; [|exact Hws]. cbn. intros w (Hw & Hin).
    split; [lia | exact Hin].
  - intros ->. destruct ws; [reflexivity | discriminate].
  - intros Ea ->. exact (Hone _ Ea).
Qed.

Lemma sample_random_shape_witness :
  exists ws,
    sample_random (fun i => Nat.mul 7 i) (lit "a") 5 3 0%nat
    = (Ok ws, (0 + Z.to_nat 3 * Z.to_nat 5)%nat)
    /\ Z.of_nat (List.length ws) = 3
    /\ Forall (fun w => Z.of_nat (List.length w) = 5
                        /\ Forall (fun c => In c (lit "a")) w) ws
    /\ (3 = 0 -> ws = [])
    /\ (forall a, lit "a" = [a] ->
          Forall (fun w => w = List.repeat a (Z.to_nat 5)) ws)
    /\ (lit "a" = lit "a" -> 5 = 5 ->
        Forall (fun w => w = lit "aaaaa") ws).
Proof.
  apply (sample_random_shape (fun i => Nat.mul 7 i) (lit "a") 5 3 0%nat);
    [discriminate | lia | lia].
Defined.

(** C9: [sample_random] raises exactly when the alphabet is empty.  It
    checks neither [length] nor [count]: over a non-empty alphabet a
    [length <= 0] gives [count] empty words and a [count <= 0] gives the
    empty list, both as normal results. *)
Theorem sample_random_raises_iff_empty (entropy : nat -> nat)
    (charset : str) (length count : Z) (pos : nat) :
  ((exists e,
      fst (sample_random entropy charset length count pos) = Raise e)
   <-> charset = [])
  /\ (charset <> [] -> length <= 0 ->
      fst (sample_random entropy charset length count pos)
      = Ok (List.repeat [] (Z.to_nat count)))
  /\ (charset <> [] -> count <= 0 ->
      fst (sample_random entropy charset length count pos) = Ok []).
Proof.
  split; [split|split].
  - intros (e & He). destruct charset as [|a rest]; [reflexivity|].
    destruct (sample_random_ok entropy (a :: rest) ltac:(discriminate)
                length count pos) as (ws & E & _).
    rewrite E in He. discriminate.
  - intros ->.
    destruct (sample_random_empty entropy length count pos) as (msg & E).
    rewrite E. eexists. reflexivity.
  - intros Hne HL.
    destruct (sample_random_ok entropy charset Hne length count pos)
      as (ws & E & Hn & Hws).
    rewrite E. cbn [fst]. f_equal. rewrite <- Hn.
    clear E Hn. induction Hws as [|w ws (Hw & _) _ IH]; [reflexivity|].
    cbn [List.length List.repeat]. rewrite <- IH. f_equal.
    destruct w; [reflexivity | cbn in Hw; lia].
  - intros Hne Hc.
    destruct (sample_random_ok entropy charset Hne length count pos)
      as (ws & E & Hn & _).
    rewrite E. cbn [fst]. f_equal.
    destruct ws; [reflexivity | cbn in Hn; lia].
Qed.

Lemma sample_random_raises_iff_empty_witness :
  fst (sample_random (fun i => i) (lit "abc") (-1) 3 0%nat)
  = Ok (List.repeat [] (Z.to_nat 3))
  /\ fst (sample_random (fun i => i) (lit "abc") 2 (-3) 0%nat) = Ok []
  /\ exists e, fst (sample_random (fun i => i) [] 2 3 0%nat) = Raise e.
Proof.
  split; [|split].
  - apply (sample_random_raises_iff_empty (fun i => i) (lit "abc") (-1) 3 0);
      [discriminate | lia].
  - apply (sample_random_raises_iff_empty (fun i => i) (lit "abc") 2 (-3) 0);
      [discriminate | lia].
  - apply (sample_random_raises_iff_empty (fun i => i) [] 2 3 0).
    reflexivity.
Defined.

(** ** [build_charset] *)

Lemma filter_twice {A} (f g : A -> bool) (l : list A) :
  filter f (filter g l) = filter (fun x => g x && f x) l.
Proof.
  induction l as [|a l IH]; [reflexivity|]. cbn [filter].
  destruct (g a); cbn [andb filter]; [destruct (f a)|]; now rewrite IH.
Qed.

Module DictFacts.
Import Dict.

Lemma keys_replace {V} (d : t V) (k : char) (v : V) :
  keys (replace d k v) = keys d.
Proof.
  induction d as [|[k' v'] d IH]; [reflexivity|]. cbn [replace].
  destruct (N.eqb k' k); cbn; [reflexivity|].
  unfold keys in IH. now rewrite IH.
Qed.

Lemma contains_app {V} (d1 d2 : t V) (k : char) :
  contains (d1 ++ d2) k = contains d1 k || contains d2 k.
Proof.
  induction d1 as [|[k' v'] d1 IH]; [reflexivity|]. cbn [contains app].
  destruct (N.eqb k' k); [reflexivity | exact IH].
Qed.

Lemma contains_replace {V} (d : t V) (k : char) (v : V) (x : char) :
  contains (replace d k v) x = contains d x.
Proof.
  induction d as [|[k' v'] d IH]; [reflexivity|]. cbn [replace].
  destruct (N.eqb k' k); cbn [contains]; [reflexivity|].
  now rewrite IH.
Qed.

(** Inserting the symbols of [s] into [d] appends, in order of first
    occurrence, the symbols [d] does not hold yet. *)
Lemma keys_fold_setitem (s : str) :
  forall d : t unit,
    keys (fold_left (fun d k => setitem d k tt) s d)
    = keys d ++ filter (fun x => negb (contains d x)) (keep_first s).
Proof.
  induction s as [|c s IH]; intros d; cbn [fold_left keep_first filter].
  - now rewrite app_nil_r.
  - rewrite IH. unfold setitem. destruct (contains d c) eqn:Hc.
    + cbn [negb]. rewrite keys_replace, filter_twice. f_equal.
      apply filter_ext. intros x. rewrite contains_replace.
      destruct (N.eqb_spec x c) as [->|_]; cbn [negb andb];
        [now rewrite Hc | reflexivity].
    + cbn [negb]. unfold keys at 1. rewrite map_app. cbn [map fst].
      rewrite <- app_assoc. cbn [app]. fold (keys d). do 2 f_equal.
      rewrite filter_twice. apply filter_ext. intros x.
      rewrite contains_app. cbn [contains].
      rewrite (N.eqb_sym c x).
      destruct (contains d x), (N.eqb x c); reflexivity.
Qed.

Lemma keys_fromkeys (s : str) : keys (fromkeys s) = keep_first s.
Proof.
  unfold fromkeys. rewrite keys_fold_setitem. cbn [keys map app contains].
  apply filter_true.
Qed.

End DictFacts.

Lemma keep_first_In (s : str) (x : char) :
  In x (keep_first s) <-> In x s.
Proof.
  induction s as [|c s IH]; [reflexivity|]. cbn [keep_first In].
  rewrite filter_In, IH, negb_true_iff, N.eqb_neq.
  destruct (N.eq_dec c x) as [->|Hn]; [tauto|].
  split; [tauto|]. intros [H|H]; [tauto|].
  right. split; [exact H | intros E; apply Hn; now rewrite E].
Qed.

Lemma keep_first_NoDup (s : str) : NoDup (keep_first s).
Proof.
  induction s as [|c s IH]; cbn [keep_first]; constructor.
  - rewrite filter_In, negb_true_iff, N.eqb_neq. tauto.
  - now apply NoDup_filter.
Qed.

(** Symbols met after a prefix keep their order behind those of the
    prefix. *)
Lemma keep_first_app (s1 s2 : str) :
  keep_first (s1 ++ s2)
  = keep_first s1
    ++ filter (fun x => negb (existsb (N.eqb x) s1)) (keep_first s2).
Proof.
  induction s1 as [|c s1 IH]; cbn [app keep_first existsb].
  - cbn [negb]. now rewrite filter_true.
  - rewrite IH, filter_app, filter_twice. cbn [app]. do 2 f_equal.
    apply filter_ext. intros x. now rewrite negb_orb, andb_comm.
Qed.

Lemma keep_first_at_first_occurrence (pre post : str) (c : char) :
  ~ In c pre ->
  exists rest,
    keep_first (pre ++ c :: post) = keep_first pre ++ c :: rest
    /\ ~ In c rest.
Proof.
  intros Hpre. rewrite keep_first_app. cbn [keep_first filter].
  assert (E : existsb (N.eqb c) pre = false).
  { apply not_true_is_false. intros H. apply existsb_exists in H.
    destruct H as (y & Hy & Hcy). apply N.eqb_eq in Hcy. subst y. exact (Hpre Hy). }
  rewrite E. cbn [negb]. eexists. split; [reflexivity|].
  rewrite filter_In, filter_In, negb_true_iff, N.eqb_neq. tauto.
Qed.

Lemma concat_charset_parts (l u d sp : bool) (extra : str) :
  concat (charset_parts l u d sp extra) = classes_in_order l u d sp extra.
Proof.
  unfold charset_parts, classes_in_order.
  destruct l, u, d, sp; cbn [app concat]; rewrite ?app_nil_r; reflexivity.
Qed.

Lemma build_charset_keep_first (l u d sp : bool) (extra : str) :
  build_charset l u d sp extra
  = keep_first (classes_in_order l u d sp extra).
Proof.
  unfold build_charset.
  now rewrite DictFacts.keys_fromkeys, concat_charset_parts.
Qed.

(** C7: [build_charset] joins lowercase, uppercase, digits and, when the
    special class is on, the fixed special set followed by
    [extra_special], in this order and each only if enabled, and keeps of
    every symbol its first occurrence only: the result has no duplicate,
    holds the same symbols as the joined string, and has every symbol right
    behind what the part before its first occurrence leaves; a symbol of
    both the fixed special set and [extra_special] occurs once. *)
Theorem build_charset_dedup (use_lower use_upper use_digits use_special : bool)
    (extra_special : str) :
  let joined := classes_in_order use_lower use_upper use_digits use_special
                  extra_special in
  let charset := build_charset use_lower use_upper use_digits use_special
                   extra_special in
  charset = keep_first joined
  /\ NoDup charset
  /\ (forall c, In c charset <-> In c joined)
  /\ (forall pre c post,
        joined = pre ++ c :: post -> ~ In c pre ->
        exists rest, charset = keep_first pre ++ c :: rest /\ ~ In c rest)
  /\ (use_special = true ->
      forall c, In c common_specials -> In c extra_special ->
        count_occ N.eq_dec charset c = 1%nat).
Proof.
  intros joined charset.
  assert (E : charset = keep_first joined)
    by apply build_charset_keep_first.
  split; [exact E|]. rewrite E.
  split; [apply keep_first_NoDup|].
  split; [intros c; apply keep_first_In|].
  split.
  - intros pre c post -> Hpre.
    now apply keep_first_at_first_occurrence.
  - intros Hsp c Hc _.
    apply NoDup_count_occ'; [apply keep_first_NoDup|].
    apply keep_first_In. unfold joined, classes_in_order. rewrite Hsp.
    rewrite !in_app_iff. tauto.
Qed.

Lemma build_charset_dedup_witness :
  build_charset false false true true (lit "!a!0b")
  = lit "0123456789!@#$%^&*()-_=+[]{};:,.<>/?ab"
  /\ count_occ N.eq_dec
       (build_charset false false true true (lit "!a!0b")) 33%N = 1%nat.
Proof.
  destruct (build_charset_dedup false false true true (lit "!a!0b"))
    as (E & _ & _ & _ & Once).
  split.
  - rewrite E. vm_compute. reflexivity.
  - apply Once; [reflexivity | vm_compute; tauto | vm_compute; tauto].
Defined.

(** ** [itertools.product] counts in base [|alphabet|] *)

Lemma seq_from (a n : nat) : seq a n = map (fun r => (a + r)%nat) (seq 0 n).
Proof.
  induction n as [|n IH]; [reflexivity|].
  rewrite !seq_S, map_app, <- IH. reflexivity.
Qed.

(** The numbers below [m * n], as [m] blocks of [n]. *)
Lemma seq_blocks (n m : nat) :
  seq 0 (m * n)
  = flat_map (fun q => map (fun r => (q * n + r)%nat) (seq 0 n)) (seq 0 m).
Proof.
  induction m as [|m IH]; [reflexivity|].
  rewrite seq_S, flat_map_app. cbn [flat_map Nat.add]. rewrite app_nil_r.
  rewrite <- IH, <- seq_from, <- seq_app. f_equal. lia.
Qed.

Lemma flat_map_of_map {A B C} (f : B -> list C) (g : A -> B) (l : list A) :
  flat_map f (map g l) = flat_map (fun x => f (g x)) l.
Proof.
  induction l as [|a l IH]; [reflexivity|]. cbn. now rewrite IH.
Qed.

Lemma map_of_flat_map {A B C} (f : B -> C) (g : A -> list B) (l : list A) :
  map f (flat_map g l) = flat_map (fun x => map f (g x)) l.
Proof.
  induction l as [|a l IH]; [reflexivity|]. cbn.
  now rewrite map_app, IH.
Qed.

Lemma map_by_position {A B} (f : A -> B) (l : list A) (d : A) :
  map f l = map (fun r => f (nth r l d)) (seq 0 (List.length l)).
Proof.
  induction l as [|a l IH]; [reflexivity|].
  cbn [List.length seq map nth]. f_equal.
  rewrite <- seq_shift, map_map. exact IH.
Qed.

Lemma index_digits_step (n L q r : nat) :
  (r < n)%nat ->
  index_digits n (S L) (q * n + r) = index_digits n L q ++ [r].
Proof.
  intros Hr. cbn [index_digits].
  rewrite Nat.div_add_l, Nat.div_small, Nat.add_0_r by lia.
  rewrite Nat.add_comm, Nat.Div0.mod_add, Nat.mod_small by lia.
  reflexivity.
Qed.

Lemma index_digits_length (n L : nat) :
  forall k, List.length (index_digits n L k) = L.
Proof.
  induction L as [|L IH]; intros k; cbn [index_digits]; [reflexivity|].
  rewrite length_app, IH. cbn. lia.
Qed.

Lemma index_digits_below (n L : nat) :
  (0 < n)%nat ->
  forall k, Forall (fun d => (d < n)%nat) (index_digits n L k).
Proof.
  intros Hn. induction L as [|L IH]; intros k; cbn [index_digits].
  - constructor.
  - apply Forall_app. split; [apply IH|].
    constructor; [|constructor]. apply Nat.mod_upper_bound. lia.
Qed.

Section Product.

Variable charset : str.

Let n := List.length charset.

Lemma fold_product_step_succ (L : nat) (init : list (list char)) :
  fold_left product_step (List.repeat charset (S L)) init
  = product_step (fold_left product_step (List.repeat charset L) init)
      charset.
Proof.
  cbn [List.repeat]. rewrite repeat_cons, fold_left_app. reflexivity.
Qed.

(** One more position: every word so far, extended by every symbol. *)
Lemma product_step_odometer (L : nat) :
  product_step (odometer charset L) charset = odometer charset (S L).
Proof.
  unfold product_step, odometer. fold n.
  rewrite flat_map_of_map.
  rewrite Nat.pow_succ_r', (Nat.mul_comm n), seq_blocks, map_of_flat_map.
  apply flat_map_ext. intros q.
  rewrite (map_by_position _ charset 0%N), map_map. fold n.
  apply map_ext_in. intros r Hr. apply in_seq in Hr.
  unfold word_at. fold n.
  rewrite index_digits_step by lia.
  now rewrite map_app.
Qed.

Lemma fold_product_odometer (L : nat) :
  fold_left product_step (List.repeat charset L) [[]]
  = odometer charset L.
Proof.
  induction L as [|L IH]; [reflexivity|].
  now rewrite fold_product_step_succ, IH, product_step_odometer.
Qed.

Lemma product_odometer (L : nat) :
  product charset (Z.of_nat L) = Ok (odometer charset L).
Proof.
  unfold product.
  destruct (Z.ltb_spec (Z.of_nat L) 0); [lia|].
  now rewrite Nat2Z.id, fold_product_odometer.
Qed.

Lemma odometer_length (L : nat) :
  List.length (odometer charset L) = Nat.pow n L.
Proof. unfold odometer. now rewrite length_map, length_seq. Qed.

End Product.

(** ** Draining [enumerate_all] *)

Lemma for_each_yield {I A} (f : I -> list A) (body : I -> Gen.trace A)
    (items : list I) :
  (forall i, In i items -> body i = Gen.yield_from (f i)) ->
  Gen.for_each items body = Gen.yield_from (flat_map f items).
Proof.
  induction items as [|i items IH]; intros H; [reflexivity|].
  cbn [Gen.for_each flat_map].
  rewrite (H i (or_introl eq_refl)), IH by (intros; apply H; now right).
  reflexivity.
Qed.

Lemma range_of_nat (lo hi : Z) :
  0 <= lo ->
  range lo hi = map Z.of_nat (seq (Z.to_nat lo) (Z.to_nat (hi - lo))).
Proof.
  intros H. unfold range.
  rewrite (seq_from (Z.to_nat lo)), map_map.
  apply map_ext. intros i. lia.
Qed.

(** On a valid input the run of [enumerate_all] ends normally and yields
    the odometer of every length of the range, shortest first. *)
Lemma enumerate_all_valid (charset : str) (min_len max_len : Z) :
  charset <> [] -> 1 <= min_len <= max_len ->
  enumerate_all charset min_len max_len
  = Gen.mk
      (flat_map (odometer charset)
         (seq (Z.to_nat min_len) (Z.to_nat (max_len - min_len + 1))))
      None.
Proof.
  intros Hne Hr. unfold enumerate_all.
  rewrite is_empty_false by assumption.
  destruct (Z.ltb_spec min_len 1); [lia|].
  destruct (Z.ltb_spec max_len min_len); [lia|]. cbn [orb].
  rewrite range_of_nat by lia.
  replace (max_len + 1 - min_len) with (max_len - min_len + 1) by lia.
  rewrite (for_each_yield (fun L => odometer charset (Z.to_nat L))).
  - unfold Gen.yield_from. f_equal. rewrite flat_map_of_map.
    apply flat_map_ext. intros L. now rewrite Nat2Z.id.
  - intros L HL. apply in_map_iff in HL. destruct HL as (k & <- & _).
    rewrite product_odometer, Nat2Z.id. unfold join.
    now rewrite map_id.
Qed.

(** ** The odometer holds every word once, in lexicographic order *)

Lemma lex_lt_snoc_prefix (a b : list nat) (x y : nat) :
  lex_lt a b -> lex_lt (a ++ [x]) (b ++ [y]).
Proof.
  induction 1 as [u v us vs Huv Hlen | u us vs _ IH]; cbn [app].
  - apply lex_here; [exact Huv|]. rewrite !length_app. cbn. lia.
  - apply lex_next. exact IH.
Qed.

Lemma lex_lt_snoc_last (a : list nat) (x y : nat) :
  (x < y)%nat -> lex_lt (a ++ [x]) (a ++ [y]).
Proof.
  intros Hxy. induction a as [|u a IH]; cbn [app].
  - now apply lex_here.
  - now apply lex_next.
Qed.

Lemma lex_lt_irrefl (a : list nat) : ~ lex_lt a a.
Proof.
  induction a as [|u a IH]; intros H; inversion H; subst; [lia | auto].
Qed.

(** Counting up is lexicographic on the digits. *)
Lemma index_digits_increasing (n L : nat) :
  forall i j,
    (i < j < Nat.pow n L)%nat ->
    lex_lt (index_digits n L i) (index_digits n L j).
Proof.
  induction L as [|L IH]; intros i j Hij.
  - cbn in Hij. lia.
  - assert (Hn : (0 < n)%nat).
    { destruct n; [cbn in Hij; lia | lia]. }
    rewrite Nat.pow_succ_r' in Hij. cbn [index_digits].
    pose proof (Nat.div_mod_eq i n) as Ei.
    pose proof (Nat.div_mod_eq j n) as Ej.
    pose proof (Nat.mod_upper_bound i n ltac:(lia)) as Bi.
    pose proof (Nat.mod_upper_bound j n ltac:(lia)) as Bj.
    destruct (Nat.lt_trichotomy (i / n) (j / n)) as [Hlt|[Heq|Hgt]].
    + apply lex_lt_snoc_prefix, IH. split; [exact Hlt|].
      apply Nat.Div0.div_lt_upper_bound. lia.
    + rewrite Heq. apply lex_lt_snoc_last. nia.
    + exfalso. nia.
Qed.

Lemma rank_nth (alphabet : str) :
  NoDup alphabet ->
  forall d, (d < List.length alphabet)%nat ->
    rank alphabet (nth d alphabet 0%N) = d.
Proof.
  induction 1 as [|a l Ha _ IH]; intros d Hd; [cbn in Hd; lia|].
  destruct d as [|d]; cbn [nth rank].
  - now rewrite N.eqb_refl.
  - cbn in Hd. destruct (N.eqb_spec a (nth d l 0%N)) as [E|_].
    + exfalso. apply Ha. rewrite E. apply nth_In. lia.
    + f_equal. apply IH. lia.
Qed.

Lemma rank_word_at (alphabet : str) (L k : nat) :
  NoDup alphabet -> alphabet <> [] ->
  map (rank alphabet) (word_at alphabet L k)
  = index_digits (List.length alphabet) L k.
Proof.
  intros Hnd Hne. unfold word_at. rewrite map_map.
  pose proof (index_digits_below (List.length alphabet) L
                (nonempty_length alphabet Hne) k) as Hb.
  induction Hb as [|d ds Hd _ IH]; [reflexivity|].
  cbn [map]. now rewrite rank_nth, IH.
Qed.

Lemma StronglySorted_map_seq {A} (R : A -> A -> Prop) (f : nat -> A)
    (m : nat) :
  forall s,
    (forall i j, (s <= i < j)%nat -> (j < s + m)%nat -> R (f i) (f j)) ->
    StronglySorted R (map f (seq s m)).
Proof.
  induction m as [|m IH]; intros s H; cbn [seq map]; constructor.
  - apply IH. intros i j Hij Hj. apply H; lia.
  - apply Forall_forall. intros x Hx. apply in_map_iff in Hx.
    destruct Hx as (j & <- & Hj). apply in_seq in Hj. apply H; lia.
Qed.

Lemma odometer_sorted (alphabet : str) (L : nat) :
  NoDup alphabet -> alphabet <> [] ->
  StronglySorted (word_lt alphabet) (odometer alphabet L).
Proof.
  intros Hnd Hne. unfold odometer. apply StronglySorted_map_seq.
  intros i j Hij Hj. unfold word_lt.
  rewrite !rank_word_at by assumption.
  apply index_digits_increasing. lia.
Qed.

Lemma word_at_shape (alphabet : str) (L k : nat) :
  alphabet <> [] ->
  List.length (word_at alphabet L k) = L
  /\ Forall (fun c => In c alphabet) (word_at alphabet L k).
Proof.
  intros Hne. unfold word_at. split.
  - now rewrite length_map, index_digits_length.
  - apply Forall_map.
    eapply Forall_impl;
      [|apply index_digits_below, nonempty_length, Hne].
    cbn. intros d Hd. now apply nth_In.
Qed.

(** Every word of length [L] over the alphabet is spelled by some index. *)
Lemma word_at_complete (alphabet : str) (L : nat) :
  forall w,
    List.length w = L -> Forall (fun c => In c alphabet) w ->
    exists k,
      (k < Nat.pow (List.length alphabet) L)%nat
      /\ word_at alphabet L k = w.
Proof.
  induction L as [|L IH]; intros w Hlen Hall.
  - destruct w; [|discriminate]. exists O. split; [cbn; lia | reflexivity].
  - destruct (exists_last (l := w)) as (w' & c & ->);
      [intros ->; discriminate|].
    rewrite length_app in Hlen. cbn in Hlen.
    apply Forall_app in Hall. destruct Hall as (Hw' & Hc).
    inversion Hc as [|? ? Hin _]; subst.
    destruct (IH w' ltac:(lia) Hw') as (q & Hq & Eq).
    destruct (In_nth _ _ 0%N Hin) as (r & Hr & Er).
    exists (q * List.length alphabet + r)%nat. split.
    + rewrite Nat.pow_succ_r'. clear - Hq Hr. unfold char in *.
      set (m := Nat.pow (List.length alphabet) L) in *. clearbody m. nia.
    + unfold word_at in *. rewrite index_digits_step by exact Hr.
      rewrite map_app, Eq. cbn [map]. do 2 f_equal. exact Er.
Qed.

Lemma odometer_In (alphabet : str) (L : nat) (w : str) :
  alphabet <> [] ->
  In w (odometer alphabet L)
  <-> List.length w = L /\ Forall (fun c => In c alphabet) w.
Proof.
  intros Hne. unfold odometer. rewrite in_map_iff. split.
  - intros (k & <- & _). now apply word_at_shape.
  - intros (Hlen & Hall).
    destruct (word_at_complete alphabet L w Hlen Hall) as (k & Hk & E).
    exists k. split; [exact E | apply in_seq; lia].
Qed.

Lemma odometer_total (charset : str) (k : nat) :
  forall a,
    Z.of_nat
      (List.length (flat_map (odometer charset) (seq a k)))
    = sum_pow (Z.of_nat (List.length charset)) (Z.of_nat a) k.
Proof.
  induction k as [|k IH]; intros a; [reflexivity|].
  cbn [seq flat_map sum_pow].
  rewrite length_app, Nat2Z.inj_add, IH, odometer_length, Nat2Z.inj_pow.
  f_equal. f_equal. lia.
Qed.

(** C1: for a non-empty alphabet and [1 <= min_len <= max_len],
    [enumerate_all] ends normally and yields, for each length [L] from
    [min_len] to [max_len] in increasing order, the odometer of length
    [L]: [|alphabet|^L] words, the [k]-th spelling [k] in base
    [|alphabet|] with the last position advancing fastest; these are
    exactly the words of length [L] over the alphabet, counting up is
    lexicographic on the positions, and for an alphabet without duplicates
    every block is strictly sorted by the alphabet's symbol ordering.  For
    ["ab"] with both bounds 2 the run is ["aa"], ["ab"], ["ba"], ["bb"]. *)
Theorem enumerate_all_ordering (charset : str) (min_len max_len : Z) :
  charset <> [] -> 1 <= min_len <= max_len ->
  let n := List.length charset in
  enumerate_all charset min_len max_len
  = Gen.mk
      (flat_map (odometer charset)
         (seq (Z.to_nat min_len) (Z.to_nat (max_len - min_len + 1))))
      None
  /\ (forall L, List.length (odometer charset L) = Nat.pow n L)
  /\ (forall L w,
        In w (odometer charset L)
        <-> List.length w = L /\ Forall (fun c => In c charset) w)
  /\ (forall L i j,
        (i < j < Nat.pow n L)%nat ->
        lex_lt (index_digits n L i) (index_digits n L j))
  /\ (NoDup charset ->
      forall L, StronglySorted (word_lt charset) (odometer charset L))
  /\ Gen.yielded (enumerate_all (lit "ab") 2 2)
     = [lit "aa"; lit "ab"; lit "ba"; lit "bb"].
Proof.
  intros Hne Hr n.
  split; [now apply enumerate_all_valid|].
  split; [intros L; apply odometer_length|].
  split; [intros L w; now apply odometer_In|].
  split; [intros L i j; apply index_digits_increasing|].
  split; [intros Hnd L; now apply odometer_sorted|].
  reflexivity.
Qed.

Lemma enumerate_all_ordering_witness :
  enumerate_all (lit "abc") 1 3
  = Gen.mk
      (flat_map (odometer (lit "abc"))
         (seq (Z.to_nat 1) (Z.to_nat (3 - 1 + 1))))
      None
  /\ StronglySorted (word_lt (lit "abc")) (odometer (lit "abc") 2).
Proof.
  destruct (enumerate_all_ordering (lit "abc") 1 3)
    as (E & _ & _ & _ & S & _); [discriminate | lia |].
  split; [exact E|]. apply S.
  repeat constructor; cbn; intuition discriminate.
Defined.

(** C3: for a non-empty alphabet and [1 <= min_len <= max_len], the
    number of words [enumerate_all] yields is the integer
    [total_combinations] returns for the alphabet's size and the same
    range; for ["ab"] and lengths 1 to 2 both are 6. *)
Theorem enumerate_all_count (charset : str) (min_len max_len : Z) :
  charset <> [] -> 1 <= min_len <= max_len ->
  total_combinations (Z.of_nat (List.length charset)) min_len max_len
  = Some (Z.of_nat
            (List.length
               (Gen.yielded (enumerate_all charset min_len max_len))))
  /\ Gen.raised (enumerate_all charset min_len max_len) = None
  /\ Gen.yielded (enumerate_all (lit "ab") 1 2)
     = [lit "a"; lit "b"; lit "aa"; lit "ab"; lit "ba"; lit "bb"]
  /\ total_combinations 2 1 2 = Some 6.
Proof.
  intros Hne Hr.
  rewrite enumerate_all_valid by assumption. cbn [Gen.yielded Gen.raised].
  split; [|split; [reflexivity | split; reflexivity]].
  rewrite total_combinations_valid;
    [|pose proof (nonempty_length charset Hne); lia | exact Hr].
  f_equal. rewrite odometer_total. f_equal. lia.
Qed.

Lemma enumerate_all_count_witness :
  total_combinations (Z.of_nat (List.length (lit "ab"))) 1 2
  = Some (Z.of_nat
            (List.length (Gen.yielded (enumerate_all (lit "ab") 1 2))))
  /\ Z.of_nat (List.length (Gen.yielded (enumerate_all (lit "ab") 1 2))) = 6.
Proof.
  split; [|reflexivity].
  apply (enumerate_all_count (lit "ab") 1 2); [discriminate | lia].
Defined.

(** * Further properties *)

(** ** [total_combinations] over adjacent ranges and larger inputs *)

Lemma sum_pow_app (n : Z) (k1 k2 : nat) :
  forall a,
    sum_pow n a (k1 + k2)
    = sum_pow n a k1 + sum_pow n (a + Z.of_nat k1) k2.
Proof.
  induction k1 as [|k1 IH]; intros a.
  - rewrite Nat.add_0_l. cbn [sum_pow].
    replace (a + Z.of_nat 0) with a by lia. lia.
  - rewrite Nat.add_succ_l. cbn [sum_pow]. rewrite IH.
    replace (a + 1 + Z.of_nat k1) with (a + Z.of_nat (S k1)) by lia. lia.
Qed.

Lemma sum_pow_le_base (n m : Z) (k : nat) :
  forall a, 0 <= n <= m -> 0 <= a -> sum_pow n a k <= sum_pow m a k.
Proof.
  induction k as [|k IH]; intros a Hnm Ha; cbn [sum_pow]; [lia|].
  specialize (IH (a + 1) Hnm ltac:(lia)).
  pose proof (Z.pow_le_mono_l n m a Hnm). lia.
Qed.

Lemma total_combinations_nonneg (n a b t : Z) :
  total_combinations n a b = Some t -> 0 <= t.
Proof.
  destruct (Z_le_gt_dec n 0) as [Hn|Hn];
    [|destruct (Z_lt_ge_dec a 1) as [Ha|Ha];
      [|destruct (Z_lt_ge_dec b a) as [Hb|Hb]]].
  1-3: rewrite total_combinations_invalid by lia; intros [= <-]; lia.
  rewrite total_combinations_valid by lia. intros [= <-].
  apply sum_pow_nonneg; lia.
Qed.

(** X1: the total over a range is the total over its lower part plus
    the total over its upper part. *)
Theorem total_combinations_split (n a b c : Z) :
  1 <= n -> 1 <= a <= b -> b < c ->
  exists t1 t2,
    total_combinations n a b = Some t1
    /\ total_combinations n (b + 1) c = Some t2
    /\ total_combinations n a c = Some (t1 + t2).
Proof.
  intros Hn Hab Hbc.
  rewrite !total_combinations_valid by lia.
  do 2 eexists. split; [reflexivity|]. split; [reflexivity|]. f_equal.
  replace (Z.to_nat (c - a + 1))
    with (Z.to_nat (b - a + 1) + Z.to_nat (c - (b + 1) + 1))%nat by lia.
  rewrite sum_pow_app. do 2 f_equal. lia.
Qed.

Lemma total_combinations_split_witness :
  exists t1 t2,
    total_combinations 10 1 2 = Some t1
    /\ total_combinations 10 (2 + 1) 4 = Some t2
    /\ total_combinations 10 1 4 = Some (t1 + t2).
Proof. apply (total_combinations_split 10 1 2 4); lia. Defined.

(** X2: for all integer inputs, a larger alphabet size and a larger
    upper bound never give a smaller total. *)
Theorem total_combinations_monotone (n m a b b' : Z) :
  n <= m -> b <= b' ->
  exists t t',
    total_combinations n a b = Some t
    /\ total_combinations m a b' = Some t'
    /\ t <= t'.
Proof.
  intros Hnm Hbb.
  destruct (Z_le_gt_dec n 0) as [Hn|Hn];
    [|destruct (Z_lt_ge_dec a 1) as [Ha|Ha];
      [|destruct (Z_lt_ge_dec b a) as [Hb|Hb]]].
  1-3: rewrite (total_combinations_invalid n a b) by lia;
    destruct (total_combinations m a b') as [t'|] eqn:E;
    [ exists 0, t'; repeat split; try reflexivity;
      now apply (total_combinations_nonneg m a b')
    | exfalso;
      destruct (Z_le_gt_dec m 0);
        [|destruct (Z_lt_ge_dec a 1); [|destruct (Z_lt_ge_dec b' a)]];
        [rewrite total_combinations_invalid in E by lia; discriminate ..
        | rewrite total_combinations_valid in E by lia; discriminate ] ].
  rewrite !total_combinations_valid by lia.
  do 2 eexists. split; [reflexivity|]. split; [reflexivity|].
  replace (Z.to_nat (b' - a + 1))
    with (Z.to_nat (b - a + 1) + Z.to_nat (b' - b))%nat by lia.
  rewrite sum_pow_app.
  pose proof (sum_pow_le_base n m (Z.to_nat (b - a + 1)) a
                ltac:(lia) ltac:(lia)).
  pose proof (sum_pow_nonneg m (Z.to_nat (b' - b))
                (a + Z.of_nat (Z.to_nat (b - a + 1)))
                ltac:(lia) ltac:(lia)).
  lia.
Qed.

Lemma total_combinations_monotone_witness :
  exists t t',
    total_combinations 26 2 3 = Some t
    /\ total_combinations 62 2 5 = Some t'
    /\ t <= t'.
Proof. apply (total_combinations_monotone 26 62 2 3 5); lia. Defined.

(** ** [build_charset]: emptiness, size and the place of extra symbols *)

Lemma existsb_eqb_In (x : char) (s : str) :
  existsb (N.eqb x) s = true <-> In x s.
Proof.
  rewrite existsb_exists. split.
  - intros (y & Hy & E). apply N.eqb_eq in E. now subst.
  - intros H. exists x. split; [exact H | apply N.eqb_refl].
Qed.

Lemma keep_first_length_le (s : str) :
  (List.length (keep_first s) <= List.length s)%nat.
Proof.
  induction s as [|c s IH]; cbn [keep_first List.length]; [lia|].
  pose proof (filter_length_le (fun x => negb (N.eqb x c)) (keep_first s)).
  unfold char in *. lia.
Qed.

Lemma keep_first_nil (s : str) : keep_first s = [] -> s = [].
Proof. destruct s; [reflexivity | discriminate]. Qed.

(** With the special class on, the alphabet without extras is a prefix of
    the alphabet with them. *)
Lemma build_charset_special_app (l u d : bool) (extra : str) :
  build_charset l u d true extra
  = build_charset l u d true []
    ++ filter
         (fun x => negb (existsb (N.eqb x) (classes_in_order l u d true [])))
         (keep_first extra).
Proof.
  rewrite !build_charset_keep_first, <- keep_first_app. f_equal.
  unfold classes_in_order. rewrite app_nil_r, <- !app_assoc. reflexivity.
Qed.

Lemma build_charset_base_length (l u d sp : bool) :
  List.length (build_charset l u d sp [])
  = ((if l then 26 else 0) + (if u then 26 else 0) + (if d then 10 else 0)
     + (if sp then 26 else 0))%nat.
Proof. destruct l, u, d, sp; vm_compute; reflexivity. Qed.

(** X3: the alphabet is empty exactly when no class is enabled. *)
Theorem build_charset_empty_iff (use_lower use_upper use_digits
    use_special : bool) (extra_special : str) :
  build_charset use_lower use_upper use_digits use_special extra_special = []
  <-> use_lower = false /\ use_upper = false /\ use_digits = false
      /\ use_special = false.
Proof.
  rewrite build_charset_keep_first. split.
  - intros H. apply keep_first_nil in H. unfold classes_in_order in H.
    apply app_eq_nil in H. destruct H as (Hl & H).
    apply app_eq_nil in H. destruct H as (Hu & H).
    apply app_eq_nil in H. destruct H as (Hd & Hs).
    destruct use_lower; [discriminate|].
    destruct use_upper; [discriminate|].
    destruct use_digits; [discriminate|].
    destruct use_special; [discriminate|]. auto.
  - intros (-> & -> & -> & ->). reflexivity.
Qed.

(** X4: the alphabet has at least as many symbols as the enabled classes
    (26, 26, 10 and 26) and at most that many plus the extra characters
    of an enabled special class; without extra characters, or with the
    special class off, it has exactly the symbols of the enabled
    classes. *)
Theorem build_charset_length (use_lower use_upper use_digits
    use_special : bool) (extra_special : str) :
  let classes :=
    ((if use_lower then 26 else 0) + (if use_upper then 26 else 0)
     + (if use_digits then 10 else 0) + (if use_special then 26 else 0))%nat
  in
  let size :=
    List.length
      (build_charset use_lower use_upper use_digits use_special
         extra_special) in
  (classes <= size)%nat
  /\ (size
      <= classes + (if use_special then List.length extra_special else 0))%nat
  /\ (use_special = false \/ extra_special = [] -> size = classes).
Proof.
  intros classes size. subst classes size.
  destruct use_special.
  - rewrite build_charset_special_app, length_app,
      (build_charset_base_length use_lower use_upper use_digits true).
    set (added := filter _ _).
    assert (Hadd : (List.length added <= List.length extra_special)%nat).
    { subst added. etransitivity; [apply filter_length_le|].
      apply keep_first_length_le. }
    unfold char in *. split; [lia|]. split; [lia|].
    intros [H| ->]; [discriminate|]. subst added. cbn. lia.
  - assert (E : build_charset use_lower use_upper use_digits false
                  extra_special
                = build_charset use_lower use_upper use_digits false []).
    { unfold build_charset, charset_parts.
      destruct use_lower, use_upper, use_digits; reflexivity. }
    rewrite E, build_charset_base_length. lia.
Qed.

Lemma build_charset_length_witness :
  List.length (build_charset true false true false (lit "%%"))
  = (26 + 0 + 10 + 0)%nat.
Proof.
  apply (build_charset_length true false true false (lit "%%")).
  left. reflexivity.
Defined.

(** X5: with the special class on, extra characters never reorder the
    alphabet: it is the alphabet built without them, followed by the extra
    characters that alphabet does not already hold. *)
Theorem build_charset_extra_appends (use_lower use_upper use_digits : bool)
    (extra_special : str) :
  exists added,
    build_charset use_lower use_upper use_digits true extra_special
    = build_charset use_lower use_upper use_digits true [] ++ added
    /\ forall c,
         In c added
         <-> In c extra_special
             /\ ~ In c (build_charset use_lower use_upper use_digits true []).
Proof.
  eexists. split; [apply build_charset_special_app|].
  intros c. rewrite filter_In, keep_first_In, negb_true_iff.
  rewrite build_charset_keep_first, keep_first_In.
  rewrite <- (existsb_eqb_In c (classes_in_order _ _ _ true [])).
  rewrite not_true_iff_false. reflexivity.
Qed.

(** ** [enumerate_all]: coverage, repetitions and adjacent ranges *)

Lemma StronglySorted_NoDup {A} (R : A -> A -> Prop) (l : list A) :
  (forall x, ~ R x x) -> StronglySorted R l -> NoDup l.
Proof.
  intros Hirr. induction 1 as [|a l _ IH Hall]; constructor; [|exact IH].
  intros Hin. rewrite Forall_forall in Hall.
  exact (Hirr a (Hall a Hin)).
Qed.

Lemma odometer_NoDup (alphabet : str) (L : nat) :
  NoDup alphabet -> alphabet <> [] -> NoDup (odometer alphabet L).
Proof.
  intros Hnd Hne.
  apply (StronglySorted_NoDup (word_lt alphabet)).
  - intros w. apply lex_lt_irrefl.
  - now apply odometer_sorted.
Qed.

(** Blocks that tell their index apart do not share an element. *)
Lemma NoDup_flat_map_keyed {A B} (f : A -> list B) (key : B -> A)
    (l : list A) :
  NoDup l ->
  (forall x, In x l -> NoDup (f x)) ->
  (forall x y, In x l -> In y (f x) -> key y = x) ->
  NoDup (flat_map f l).
Proof.
  induction 1 as [|a l Ha _ IH]; intros Hf Hkey; cbn [flat_map].
  - constructor.
  - apply NoDup_app.
    + apply Hf. now left.
    + apply IH; intros; [apply Hf | eapply Hkey]; eauto; now right.
    + intros y Hy Hy'. apply in_flat_map in Hy'.
      destruct Hy' as (x & Hx & Hyx). apply Ha.
      rewrite <- (Hkey a y (or_introl eq_refl) Hy).
      rewrite (Hkey x y (or_intror Hx) Hyx). exact Hx.
Qed.

(** X6: on a valid input [enumerate_all] yields a word exactly when its
    length lies in the range and all its symbols are in the alphabet. *)
Theorem enumerate_all_complete (charset : str) (min_len max_len : Z)
    (w : str) :
  charset <> [] -> 1 <= min_len <= max_len ->
  In w (Gen.yielded (enumerate_all charset min_len max_len))
  <-> min_len <= Z.of_nat (List.length w) <= max_len
      /\ Forall (fun c => In c charset) w.
Proof.
  intros Hne Hr. rewrite enumerate_all_valid by assumption.
  cbn [Gen.yielded]. rewrite in_flat_map. split.
  - intros (L & HL & Hw). apply in_seq in HL.
    apply odometer_In in Hw; [|exact Hne]. destruct Hw as (Hlen & Hall).
    split; [lia | exact Hall].
  - intros (Hlen & Hall). exists (List.length w). split.
    + apply in_seq. lia.
    + apply odometer_In; auto.
Qed.

Lemma enumerate_all_complete_witness :
  In (lit "ba") (Gen.yielded (enumerate_all (lit "ab") 1 3)).
Proof.
  apply (enumerate_all_complete (lit "ab") 1 3 (lit "ba"));
    [discriminate | lia |].
  split; [cbn; lia|]. repeat constructor; cbn; tauto.
Defined.

(** X7: over an alphabet without duplicate symbols, [enumerate_all] never
    yields the same word twice. *)
Theorem enumerate_all_no_repetition (charset : str) (min_len max_len : Z) :
  NoDup charset -> charset <> [] -> 1 <= min_len <= max_len ->
  NoDup (Gen.yielded (enumerate_all charset min_len max_len)).
Proof.
  intros Hnd Hne Hr. rewrite enumerate_all_valid by assumption.
  cbn [Gen.yielded].
  apply (NoDup_flat_map_keyed (odometer charset) (@List.length char)).
  - apply seq_NoDup.
  - intros L _. now apply odometer_NoDup.
  - intros L w _ Hw. apply odometer_In in Hw; [|exact Hne]. tauto.
Qed.

Lemma enumerate_all_no_repetition_witness :
  NoDup (Gen.yielded (enumerate_all (lit "abc") 1 3)).
Proof.
  apply (enumerate_all_no_repetition (lit "abc") 1 3);
    [repeat constructor; cbn; intuition discriminate | discriminate | lia].
Defined.

(** X8: enumerating a range is enumerating its lower part and then its
    upper part. *)
Theorem enumerate_all_split (charset : str) (a b c : Z) :
  charset <> [] -> 1 <= a <= b -> b < c ->
  Gen.yielded (enumerate_all charset a c)
  = Gen.yielded (enumerate_all charset a b)
    ++ Gen.yielded (enumerate_all charset (b + 1) c).
Proof.
  intros Hne Hab Hbc. rewrite !enumerate_all_valid by (assumption || lia).
  cbn [Gen.yielded]. rewrite <- flat_map_app. f_equal.
  replace (Z.to_nat (c - a + 1))
    with (Z.to_nat (b - a + 1) + Z.to_nat (c - (b + 1) + 1))%nat by lia.
  rewrite seq_app. do 2 f_equal. lia.
Qed.

Lemma enumerate_all_split_witness :
  Gen.yielded (enumerate_all (lit "ab") 1 3)
  = Gen.yielded (enumerate_all (lit "ab") 1 2)
    ++ Gen.yielded (enumerate_all (lit "ab") (2 + 1) 3).
Proof.
  apply (enumerate_all_split (lit "ab") 1 2 3); [discriminate | lia | lia].
Defined.

(** ** [sample_random]: every outcome can be drawn; batches compose *)

Lemma rank_lt (alphabet : str) (c : char) :
  In c alphabet -> (rank alphabet c < List.length alphabet)%nat.
Proof.
  induction alphabet as [|a l IH]; intros H; [destruct H|].
  cbn [rank List.length]. destruct (N.eqb_spec a c) as [_|Hn]; [lia|].
  destruct H as [H|H]; [congruence|]. specialize (IH H). lia.
Qed.

Lemma nth_rank (alphabet : str) (c : char) :
  In c alphabet -> nth (rank alphabet c) alphabet 0%N = c.
Proof.
  induction alphabet as [|a l IH]; intros H; [destruct H|].
  cbn [rank]. destruct (N.eqb_spec a c) as [E|Hn]; [exact E|].
  destruct H as [H|H]; [congruence|]. cbn [nth]. now apply IH.
Qed.

Section Reach.

Variable entropy : nat -> nat.
Variable charset : str.

(** A tape that names the symbols of [w] from [pos] on makes the inner
    loop spell [w]. *)
Lemma word_drawn {I} (w : str) :
  forall (items : list I) pos,
    List.length items = List.length w ->
    Forall (fun c => In c charset) w ->
    (forall j, (j < List.length w)%nat ->
       entropy (pos + j) = rank charset (nth j w 0%N)) ->
    Rand.for_list items (fun _ => choice entropy charset) pos
    = (Ok w, (pos + List.length w)%nat).
Proof.
  induction w as [|c w IH]; intros items pos Hlen Hall Htape.
  - destruct items; [|discriminate]. cbn. now rewrite Nat.add_0_r.
  - destruct items as [|i items]; [discriminate|].
    inversion Hall as [|? ? Hc Hw]; subst.
    cbn [Rand.for_list]. unfold Rand.bind at 1.
    assert (Ec : choice entropy charset pos = (Ok c, S pos)).
    { unfold choice, Rand.bind, randbelow, Rand.ret.
      rewrite is_empty_false by (intros ->; destruct Hc).
      pose proof (Htape O ltac:(cbn; lia)) as E0.
      rewrite Nat.add_0_r in E0. cbn [nth] in E0. rewrite E0.
      rewrite Nat.mod_small by now apply rank_lt.
      now rewrite nth_rank. }
    rewrite Ec. unfold Rand.bind at 1.
    rewrite (IH items (S pos)); [| cbn in Hlen; lia | exact Hw |].
    + unfold Rand.ret. cbn [List.length]. f_equal. lia.
    + intros j Hj. replace (S pos + j)%nat with (pos + S j)%nat by lia.
      rewrite Htape by (cbn; lia). reflexivity.
Qed.

Lemma words_drawn {I J} (inner : list J) (ws : list str) :
  forall (outer : list I) pos,
    List.length outer = List.length ws ->
    Forall (fun w => List.length w = List.length inner
                     /\ Forall (fun c => In c charset) w) ws ->
    (forall j, (j < List.length (concat ws))%nat ->
       entropy (pos + j) = rank charset (nth j (concat ws) 0%N)) ->
    Rand.for_list outer (fun _ =>
      Rand.bind
        (Rand.for_list inner (fun _ => choice entropy charset))
        (fun chars => Rand.ret (join chars))) pos
    = (Ok ws, (pos + List.length (concat ws))%nat).
Proof.
  induction ws as [|w ws IH]; intros outer pos Hlen Hall Htape.
  - destruct outer; [|discriminate]. cbn. now rewrite Nat.add_0_r.
  - destruct outer as [|i outer]; [discriminate|].
    inversion Hall as [|? ? (Hw & Hin) Hws]; subst.
    cbn [concat] in *. rewrite length_app in *.
    cbn [Rand.for_list]. unfold Rand.bind at 1. unfold Rand.bind at 1.
    rewrite (word_drawn w inner pos); [| now symmetry | exact Hin |].
    + unfold Rand.ret at 1. unfold Rand.bind at 1.
      rewrite (IH outer (pos + List.length w)%nat);
        [| cbn in Hlen; lia | exact Hws |].
      * unfold Rand.ret, join. f_equal. lia.
      * intros j Hj.
        replace (pos + List.length w + j)%nat
          with (pos + (List.length w + j))%nat by lia.
        rewrite Htape by lia. f_equal.
        now rewrite app_nth2_plus.
    + intros j Hj. rewrite Htape by lia. f_equal.
      now rewrite app_nth1.
Qed.

End Reach.

(** X9: every list of words of the requested length over the alphabet is
    an outcome of [sample_random]: some tape of draws makes it return
    exactly that list. *)
Theorem sample_random_reaches (charset : str) (length : Z)
    (targets : list str) :
  0 <= length ->
  Forall (fun w => Z.of_nat (List.length w) = length
                   /\ Forall (fun c => In c charset) w) targets ->
  charset <> [] ->
  exists entropy,
    fst (sample_random entropy charset length
           (Z.of_nat (List.length targets)) O)
    = Ok targets.
Proof.
  intros HL Hall Hne.
  exists (fun i => rank charset (nth i (concat targets) 0%N)).
  unfold sample_random. rewrite is_empty_false by assumption.
  rewrite (words_drawn _ charset (range 0 length) targets).
  - reflexivity.
  - rewrite range_length. lia.
  - eapply Forall_impl; [|exact Hall]. cbn. intros w (Hw & Hin).
    rewrite range_length. split; [lia | exact Hin].
  - intros j _. reflexivity.
Qed.

Lemma sample_random_reaches_witness :
  exists entropy,
    fst (sample_random entropy (lit "abc") 2
           (Z.of_nat (List.length [lit "cb"; lit "aa"])) O)
    = Ok [lit "cb"; lit "aa"].
Proof.
  apply (sample_random_reaches (lit "abc") 2 [lit "cb"; lit "aa"]);
    [lia | | discriminate].
  repeat constructor; cbn; tauto.
Defined.

Lemma for_list_app {I A} (l1 l2 : list I) (body : I -> Rand.t A)
    (pos : nat) :
  Rand.for_list (l1 ++ l2) body pos
  = Rand.bind (Rand.for_list l1 body) (fun xs =>
    Rand.bind (Rand.for_list l2 body) (fun ys => Rand.ret (xs ++ ys))) pos.
Proof.
  revert pos. induction l1 as [|i l1 IH]; intros pos; cbn [app Rand.for_list].
  - unfold Rand.bind, Rand.ret. cbn.
    destruct (Rand.for_list l2 body pos) as [[ys|e] p]; reflexivity.
  - unfold Rand.bind, Rand.ret in *.
    destruct (body i pos) as [[x|e] p]; [|reflexivity]. rewrite IH.
    destruct (Rand.for_list l1 body p) as [[xs|e] p1]; [|reflexivity].
    destruct (Rand.for_list l2 body p1) as [[ys|e] p2]; reflexivity.
Qed.

(** A loop that ignores its index depends on the number of rounds only. *)
Lemma for_list_rounds {I J A} (l1 : list I) (m : Rand.t A) :
  forall (l2 : list J) pos,
    List.length l1 = List.length l2 ->
    Rand.for_list l1 (fun _ => m) pos = Rand.for_list l2 (fun _ => m) pos.
Proof.
  induction l1 as [|i l1 IH]; intros [|j l2] pos Hlen;
    try discriminate; [reflexivity|].
  cbn [Rand.for_list]. unfold Rand.bind, Rand.ret.
  destruct (m pos) as [[x|e] p]; [|reflexivity].
  rewrite (IH l2 p) by (cbn in Hlen; lia). reflexivity.
Qed.

(** X10: drawing [c1 + c2] samples is drawing [c1] samples and then [c2]
    samples from where the random source was left. *)
Theorem sample_random_batches (entropy : nat -> nat) (charset : str)
    (length c1 c2 : Z) (pos : nat) :
  charset <> [] -> 0 <= c1 -> 0 <= c2 ->
  exists ws1 p1 ws2 p2,
    sample_random entropy charset length c1 pos = (Ok ws1, p1)
    /\ sample_random entropy charset length c2 p1 = (Ok ws2, p2)
    /\ sample_random entropy charset length (c1 + c2) pos
       = (Ok (ws1 ++ ws2), p2).
Proof.
  intros Hne H1 H2.
  destruct (sample_random_ok entropy charset Hne length c1 pos)
    as (ws1 & E1 & _).
  destruct (sample_random_ok entropy charset Hne length c2
              (pos + Z.to_nat c1 * Z.to_nat length)%nat) as (ws2 & E2 & _).
  do 4 eexists. split; [exact E1|]. split; [exact E2|].
  unfold sample_random in *. rewrite is_empty_false in * by assumption.
  rewrite (for_list_rounds (range 0 (c1 + c2)) _ (range 0 c1 ++ range 0 c2))
    by (rewrite length_app, !range_length; lia).
  rewrite for_list_app. unfold Rand.bind at 1. rewrite E1.
  unfold Rand.bind at 1. rewrite E2. reflexivity.
Qed.

Lemma sample_random_batches_witness :
  exists ws1 p1 ws2 p2,
    sample_random (fun i => Nat.mul 5 i) (lit "abc") 2 1 O = (Ok ws1, p1)
    /\ sample_random (fun i => Nat.mul 5 i) (lit "abc") 2 2 p1 = (Ok ws2, p2)
    /\ sample_random (fun i => Nat.mul 5 i) (lit "abc") 2 (1 + 2) O
       = (Ok (ws1 ++ ws2), p2).
Proof.
  apply (sample_random_batches (fun i => Nat.mul 5 i) (lit "abc") 2 1 2 O);
    [discriminate | lia | lia].
Defined.

(** ** [main] *)

Lemma printed_words_map (ws : list str) :
  printed_words (map OutWord ws) = ws.
Proof.
  induction ws as [|w ws IH]; [reflexivity|].
  cbn. unfold printed_words in IH. now rewrite IH.
Qed.

Lemma total_combinations_some (n a b : Z) :
  exists t, total_combinations n a b = Some t.
Proof.
  destruct (Z_le_gt_dec n 0) as [Hn|Hn];
    [|destruct (Z_lt_ge_dec a 1) as [Ha|Ha];
      [|destruct (Z_lt_ge_dec b a) as [Hb|Hb]]].
  1-3: exists 0; apply total_combinations_invalid; lia.
  eexists. apply total_combinations_valid; lia.
Qed.

(** For a non-empty alphabet the total is 0 exactly on an invalid range. *)
Lemma total_zero_iff_invalid (charset : str) (min_len max_len total : Z) :
  charset <> [] ->
  total_combinations (Z.of_nat (List.length charset)) min_len max_len
  = Some total ->
  (total = 0 <-> min_len < 1 \/ max_len < min_len).
Proof.
  intros Hne E. pose proof (nonempty_length charset Hne) as Hn.
  destruct (Z_lt_ge_dec min_len 1) as [Ha|Ha];
    [|destruct (Z_lt_ge_dec max_len min_len) as [Hb|Hb]].
  1-2: rewrite total_combinations_invalid in E by lia;
    injection E as <-; split; [lia | reflexivity].
  rewrite total_combinations_valid in E by lia. injection E as <-.
  replace (Z.to_nat (max_len - min_len + 1))
    with (S (Z.to_nat (max_len - min_len))) by lia.
  pose proof (sum_pow_pos (Z.of_nat (List.length charset))
                (Z.to_nat (max_len - min_len)) min_len
                ltac:(lia) ltac:(lia)).
  split; lia.
Qed.

(** The three ways out of [main]'s head. *)
Lemma main_cases (entropy : nat -> nat) (a : args) :
  (resolve_lengths a = None /\ main entropy a = fail_with ErrLengthSpec)
  \/ (resolve_lengths a <> None /\ args_charset a = []
      /\ main entropy a = fail_with ErrNoClasses)
  \/ (exists min_len max_len total,
        resolve_lengths a = Some (min_len, max_len)
        /\ args_charset a <> []
        /\ total_combinations (Z.of_nat (List.length (args_charset a)))
             min_len max_len = Some total
        /\ ((arg_show_stats a = true
             /\ main entropy a
                = main_stats (args_charset a) min_len max_len total)
            \/ (arg_show_stats a = false /\ arg_sample a > 0
                /\ main entropy a = main_sample entropy a (args_charset a))
            \/ (arg_show_stats a = false /\ arg_sample a <= 0
                /\ main entropy a
                   = main_stream a (args_charset a) min_len max_len total))).
Proof.
  unfold main. fold (args_charset a).
  destruct (resolve_lengths a) as [[min_len max_len]|]; [|left; auto].
  right. destruct (args_charset a) as [|c cs] eqn:Ecs; cbn [is_empty].
  - left. repeat split; congruence.
  - right. rewrite <- Ecs.
    destruct (total_combinations_some
                (Z.of_nat (List.length (args_charset a))) min_len max_len)
      as (total & Et).
    exists min_len, max_len, total. rewrite Et.
    split; [reflexivity|]. split; [congruence|]. split; [reflexivity|].
    destruct (arg_show_stats a); [left; auto | right].
    destruct (Z.gtb_spec (arg_sample a) 0); [left | right];
      repeat split; auto; lia.
Qed.

(** The statistics branch: all three lines, or the lines before the first
    integer that cannot be printed. *)
Lemma main_stats_cases (charset : str) (min_len max_len total : Z) :
  (printable min_len /\ printable max_len /\ printable total
   /\ main_stats charset min_len max_len total
      = {| status := Some 0;
           printed :=
             [OutCharset (Z.of_nat (List.length charset)) charset;
              OutLengthRange min_len max_len;
              OutTotal total];
           errors := [];
           file := None;
           draws := O |})
  \/ (printable min_len /\ printable max_len /\ ~ printable total
      /\ main_stats charset min_len max_len total
         = {| status := None;
              printed :=
                [OutCharset (Z.of_nat (List.length charset)) charset;
                 OutLengthRange min_len max_len];
              errors := [];
              file := None;
              draws := O |})
  \/ ((~ printable min_len \/ ~ printable max_len)
      /\ main_stats charset min_len max_len total
         = {| status := None;
              printed :=
                [OutCharset (Z.of_nat (List.length charset)) charset];
              errors := [];
              file := None;
              draws := O |}).
Proof.
  unfold main_stats.
  destruct (printable_dec min_len) as [Hmn|Hmn].
  - rewrite (format_int_printable min_len Hmn).
    destruct (printable_dec max_len) as [Hmx|Hmx].
    + rewrite (format_int_printable max_len Hmx).
      destruct (printable_dec total) as [Ht|Ht].
      * left. rewrite (format_int_printable total Ht). auto.
      * right. left.
        destruct (format_int_unprintable total Ht) as (e & ->). auto.
    + right. right.
      destruct (format_int_unprintable max_len Hmx) as (e & ->). auto.
  - right. right.
    destruct (format_int_unprintable min_len Hmn) as (e & ->). auto.
Qed.

(** The sampling branch over a non-empty alphabet. *)
Lemma main_sample_cases (entropy : nat -> nat) (a : args) (charset : str) :
  charset <> [] ->
  (arg_length a = None
   /\ main_sample entropy a charset = fail_with ErrSampleLength)
  \/ (exists length ws,
        arg_length a = Some length
        /\ sample_random entropy charset length (arg_sample a) O
           = (Ok ws, (Z.to_nat (arg_sample a) * Z.to_nat length)%nat)
        /\ List.length ws = Z.to_nat (arg_sample a)
        /\ Forall (fun w => List.length w = Z.to_nat length
                            /\ Forall (fun c => In c charset) w) ws
        /\ status (main_sample entropy a charset) = Some 0
        /\ errors (main_sample entropy a charset) = []
        /\ emitted (main_sample entropy a charset) = ws
        /\ draws (main_sample entropy a charset)
           = (Z.to_nat (arg_sample a) * Z.to_nat length)%nat).
Proof.
  intros Hne. unfold main_sample.
  destruct (arg_length a) as [length|]; [right | left; auto].
  destruct (sample_random_ok entropy charset Hne length (arg_sample a) O)
    as (ws & E & Hn & Hws).
  cbn [Nat.add] in E. exists length, ws. rewrite E.
  split; [reflexivity|]. split; [reflexivity|].
  split; [exact Hn|]. split; [exact Hws|].
  destruct (out_path a) as [path|]; cbn; repeat split; auto.
  apply printed_words_map.
Qed.

(** The streaming branch for the total of a non-empty alphabet. *)
Lemma main_stream_cases (a : args) (charset : str)
    (min_len max_len total : Z) :
  charset <> [] ->
  total_combinations (Z.of_nat (List.length charset)) min_len max_len
  = Some total ->
  ((min_len < 1 \/ max_len < min_len)
   /\ main_stream a charset min_len max_len total
      = fail_with (ErrCap MsgNothingToDo))
  \/ (1 <= min_len <= max_len /\ total > arg_cap a /\ arg_force a = false
      /\ printable total /\ printable (arg_cap a)
      /\ main_stream a charset min_len max_len total
         = fail_with (ErrCap (MsgRefusing total (arg_cap a))))
  \/ (1 <= min_len <= max_len /\ total > arg_cap a /\ arg_force a = false
      /\ (~ printable total \/ ~ printable (arg_cap a))
      /\ main_stream a charset min_len max_len total = escaped)
  \/ (1 <= min_len <= max_len
      /\ (total <= arg_cap a \/ arg_force a = true)
      /\ errors (main_stream a charset min_len max_len total) = []
      /\ draws (main_stream a charset min_len max_len total) = O
      /\ emitted (main_stream a charset min_len max_len total)
         = Gen.yielded (enumerate_all charset min_len max_len)
      /\ Z.of_nat
           (List.length (emitted (main_stream a charset min_len max_len total)))
         = total
      /\ match out_path a with
         | Some path =>
             file (main_stream a charset min_len max_len total)
             = Some (path, Gen.yielded (enumerate_all charset min_len max_len))
             /\ ((printable total
                  /\ status (main_stream a charset min_len max_len total)
                     = Some 0
                  /\ printed (main_stream a charset min_len max_len total)
                     = [OutEnumerationComplete total path])
                 \/ (~ printable total
                     /\ status (main_stream a charset min_len max_len total)
                        = None
                     /\ printed (main_stream a charset min_len max_len total)
                        = []))
         | None =>
             file (main_stream a charset min_len max_len total) = None
             /\ status (main_stream a charset min_len max_len total) = Some 0
             /\ printed (main_stream a charset min_len max_len total)
                = map OutWord
                    (Gen.yielded (enumerate_all charset min_len max_len))
         end).
Proof.
  intros Hne Et.
  pose proof (total_zero_iff_invalid charset min_len max_len total Hne Et)
    as Hzero.
  destruct (gate_cases total (arg_cap a) (arg_force a))
    as [(H0 & Eg)|[(Hn0 & Hgt & Hf & Eg)|(Hn0 & Hok & Eg)]].
  - left. split; [tauto|]. unfold main_stream, main_enumerate.
    rewrite Eg. reflexivity.
  - right.
    assert (Hr : 1 <= min_len <= max_len) by lia.
    destruct (main_enumerate_refusal charset min_len max_len total
                (arg_cap a) Hn0 ltac:(lia)) as (Hp & Hu).
    rewrite <- Hf in Hp, Hu.
    destruct (printable_dec total) as [Ht|Ht];
      [destruct (printable_dec (arg_cap a)) as [Hc|Hc]|].
    + left. repeat split; auto; try lia.
      unfold main_stream. rewrite Eg, (Hp Ht Hc). reflexivity.
    + right. left. repeat split; auto; try lia.
      unfold main_stream. rewrite Eg, (Hu (or_intror Hc)). reflexivity.
    + right. left. repeat split; auto; try lia.
      unfold main_stream. rewrite Eg, (Hu (or_introl Ht)). reflexivity.
  - right. right. right.
    assert (Hr : 1 <= min_len <= max_len) by lia.
    assert (Hlen : Z.of_nat
                     (List.length
                        (Gen.yielded (enumerate_all charset min_len max_len)))
                   = total).
    { rewrite enumerate_all_valid by assumption. cbn [Gen.yielded].
      rewrite odometer_total.
      rewrite total_combinations_valid in Et
        by (pose proof (nonempty_length charset Hne); lia).
      injection Et as <-. f_equal. lia. }
    assert (Hraised : Gen.raised (enumerate_all charset min_len max_len)
                      = None)
      by now rewrite enumerate_all_valid.
    split; [exact Hr|]. split; [exact Hok|].
    unfold main_stream, main_enumerate. rewrite Eg. cbn [returned written].
    rewrite Hraised, Hlen.
    destruct (out_path a) as [path|].
    + destruct (printable_dec total) as [Ht|Ht].
      * rewrite (format_int_printable total Ht). unfold emitted. cbn.
        repeat split; auto.
      * destruct (format_int_unprintable total Ht) as (e & ->).
        unfold emitted. cbn. repeat split; auto.
    + unfold emitted. cbn. rewrite printed_words_map.
      repeat split; auto.
Qed.

(** X11: [main] returns 0, returns 1, or ends in an escaping exception.
    When it returns 1 it has printed exactly one line on the error stream
    and nothing else: no line on standard output, no file, no draw.  When
    it returns 0 the error stream is empty.  An exception escapes only
    when a length bound, the total or the cap has more than 4300 digits
    and cannot be printed; the error stream is then empty and no draw was
    taken. *)
Theorem main_status (entropy : nat -> nat) (a : args) :
  (status (main entropy a) = Some 0 /\ errors (main entropy a) = [])
  \/ (status (main entropy a) = Some 1
      /\ printed (main entropy a) = []
      /\ file (main entropy a) = None
      /\ draws (main entropy a) = O
      /\ exists msg, errors (main entropy a) = [msg])
  \/ (status (main entropy a) = None
      /\ errors (main entropy a) = []
      /\ draws (main entropy a) = O
      /\ exists min_len max_len total,
           resolve_lengths a = Some (min_len, max_len)
           /\ total_combinations (Z.of_nat (List.length (args_charset a)))
                min_len max_len = Some total
           /\ (~ printable min_len \/ ~ printable max_len
               \/ ~ printable total \/ ~ printable (arg_cap a))).
Proof.
  destruct (main_cases entropy a)
    as [(_ & ->)|[(_ & _ & ->)|(mn & mx & total & Hr & Hne & Et & Hb)]].
  1-2: right; left; cbn; repeat split; eauto.
  destruct Hb as [(_ & ->)|[(_ & _ & ->)|(_ & _ & ->)]].
  - destruct (main_stats_cases (args_charset a) mn mx total)
      as [(_ & _ & _ & ->)|[(_ & _ & Ht & ->)|(Hb & ->)]].
    + left. split; reflexivity.
    + right. right. cbn. repeat split. exists mn, mx, total. tauto.
    + right. right. cbn. repeat split. exists mn, mx, total. tauto.
  - destruct (main_sample_cases entropy a (args_charset a) Hne)
      as [(_ & ->)|(L & ws & _ & _ & _ & _ & Hs & He & _)].
    + right. left. cbn. repeat split; eauto.
    + left. auto.
  - destruct (main_stream_cases a (args_charset a) mn mx total Hne Et)
      as [(_ & ->)|[(_ & _ & _ & _ & _ & ->)|[(_ & _ & _ & Hu & ->)
         |(_ & _ & He & Hd & _ & _ & Hout)]]].
    1-2: right; left; cbn; repeat split; eauto.
    + right. right. cbn. repeat split. exists mn, mx, total. tauto.
    + destruct (out_path a) as [path|].
      * destruct Hout as (_ & [(_ & Hs & _)|(Ht & Hs & _)]);
          [left; auto|].
        right. right. repeat split; auto. exists mn, mx, total. tauto.
      * destruct Hout as (_ & Hs & _). left. auto.
Qed.

(** X12: [main] returns 0 exactly when the lengths are given, some class
    is enabled and then: statistics are asked for and the two bounds and
    the total can be printed; or, without statistics, samples are asked
    for together with a fixed length; or, without statistics and samples,
    the range is valid, the total is within the cap or forced, and the
    total can be printed if an output file is named. *)
Theorem main_succeeds_iff (entropy : nat -> nat) (a : args) :
  status (main entropy a) = Some 0
  <-> exists min_len max_len total,
        resolve_lengths a = Some (min_len, max_len)
        /\ args_charset a <> []
        /\ total_combinations (Z.of_nat (List.length (args_charset a)))
             min_len max_len = Some total
        /\ ((arg_show_stats a = true
             /\ printable min_len /\ printable max_len /\ printable total)
            \/ (arg_show_stats a = false
                /\ arg_sample a > 0 /\ arg_length a <> None)
            \/ (arg_show_stats a = false
                /\ arg_sample a <= 0 /\ 1 <= min_len <= max_len
                /\ (total <= arg_cap a \/ arg_force a = true)
                /\ (out_path a = None \/ printable total))).
Proof.
  destruct (main_cases entropy a)
    as [(Hr & ->)|[(_ & Hcs & ->)|(mn & mx & total & Hr & Hne & Et & Hb)]].
  - split; [discriminate|]. intros (? & ? & ? & H & _). congruence.
  - split; [discriminate|]. intros (? & ? & ? & _ & H & _). congruence.
  - assert (Hsame : forall mn' mx' t',
              resolve_lengths a = Some (mn', mx') ->
              total_combinations (Z.of_nat (List.length (args_charset a)))
                mn' mx' = Some t' ->
              mn' = mn /\ mx' = mx /\ t' = total).
    { intros mn' mx' t' Hr' Et'. rewrite Hr in Hr'.
      injection Hr' as <- <-. rewrite Et in Et'. injection Et' as <-.
      auto. }
    destruct Hb as [(Hs & E)|[(Hs & Hsam & E)|(Hs & Hsam & E)]]; rewrite E.
    + destruct (main_stats_cases (args_charset a) mn mx total)
        as [(Hmn & Hmx & Ht & ->)|[(_ & _ & Ht & ->)|(Hb & ->)]].
      * split; [intros _|reflexivity].
        exists mn, mx, total. repeat split; auto.
      * split; [discriminate|].
        intros (mn' & mx' & t' & Hr' & _ & Et' & H).
        destruct (Hsame _ _ _ Hr' Et') as (-> & -> & ->).
        destruct H as [(_ & _ & _ & H)|[(H & _)|(H & _)]];
          [tauto | congruence | congruence].
      * split; [discriminate|].
        intros (mn' & mx' & t' & Hr' & _ & Et' & H).
        destruct (Hsame _ _ _ Hr' Et') as (-> & -> & ->).
        destruct H as [(_ & H1 & H2 & _)|[(H & _)|(H & _)]];
          [tauto | congruence | congruence].
    + destruct (main_sample_cases entropy a (args_charset a) Hne)
        as [(HL & ->)|(L & ws & HL & _ & _ & _ & Hst & _)].
      * split; [discriminate|].
        intros (? & ? & ? & _ & _ & _ & [(H & _)|[(_ & _ & H)|(_ & H & _)]]);
          [congruence | congruence | lia].
      * split; [intros _|intros _; exact Hst].
        exists mn, mx, total. repeat split; auto.
        right. left. repeat split; [exact Hs | exact Hsam | congruence].
    + destruct (main_stream_cases a (args_charset a) mn mx total Hne Et)
        as [(Hinv & ->)|[(Hv & Hgt & Hf & _ & _ & ->)
           |[(Hv & Hgt & Hf & _ & ->)|(Hv & Hok & _ & _ & _ & _ & Hout)]]].
      * split; [discriminate|].
        intros (mn' & mx' & t' & Hr' & _ & Et' & H).
        destruct (Hsame _ _ _ Hr' Et') as (-> & -> & ->).
        destruct H as [(H & _)|[(_ & H & _)|(_ & _ & H & _)]];
          [congruence | lia | lia].
      * split; [discriminate|].
        intros (mn' & mx' & t' & Hr' & _ & Et' & H).
        destruct (Hsame _ _ _ Hr' Et') as (-> & -> & ->).
        destruct H as [(H & _)|[(_ & H & _)|(_ & _ & _ & [H|H] & _)]];
          [congruence | lia | lia | congruence].
      * split; [discriminate|].
        intros (mn' & mx' & t' & Hr' & _ & Et' & H).
        destruct (Hsame _ _ _ Hr' Et') as (-> & -> & ->).
        destruct H as [(H & _)|[(_ & H & _)|(_ & _ & _ & [H|H] & _)]];
          [congruence | lia | lia | congruence].
      * destruct (out_path a) as [path|] eqn:Eout.
        -- destruct Hout as (_ & [(Ht & Hst & _)|(Ht & Hst & _)]).
           ++ split; [intros _|intros _; exact Hst].
              exists mn, mx, total. repeat split; auto.
              right. right. repeat split; auto; lia.
           ++ rewrite Hst. split; [discriminate|].
              intros (mn' & mx' & t' & Hr' & _ & Et' & H).
              destruct (Hsame _ _ _ Hr' Et') as (-> & -> & ->).
              destruct H as [(H & _)|[(_ & H & _)|(_ & _ & _ & _ & [H|H])]];
                [congruence | lia | discriminate | tauto].
        -- destruct Hout as (_ & Hst & _).
           split; [intros _|intros _; exact Hst].
           exists mn, mx, total. repeat split; auto.
           right. right. repeat split; auto; lia.
Qed.

(** X13: without [--force] and without [--sample], [main] never hands out
    more words than the cap. *)
Theorem main_respects_cap (entropy : nat -> nat) (a : args) :
  arg_force a = false -> arg_sample a <= 0 ->
  emitted (main entropy a) <> [] ->
  Z.of_nat (List.length (emitted (main entropy a))) <= arg_cap a.
Proof.
  intros Hf Hsam Hout.
  destruct (main_cases entropy a)
    as [(_ & E)|[(_ & _ & E)|(mn & mx & total & _ & Hne & Et & Hb)]].
  1-2: rewrite E in Hout; now elim Hout.
  destruct Hb as [(_ & E)|[(_ & Hpos & _)|(_ & _ & E)]]; [|lia|].
  - rewrite E in Hout.
    destruct (main_stats_cases (args_charset a) mn mx total)
      as [(_ & _ & _ & E')|[(_ & _ & _ & E')|(_ & E')]];
      rewrite E' in Hout; now elim Hout.
  - destruct (main_stream_cases a (args_charset a) mn mx total Hne Et)
      as [(_ & E')|[(_ & _ & _ & _ & _ & E')|[(_ & _ & _ & _ & E')
         |(_ & Hok & _ & _ & _ & Hlen & _)]]].
    1-3: rewrite E, E' in Hout; now elim Hout.
    rewrite E, Hlen. destruct Hok; [assumption | congruence].
Qed.

Lemma main_respects_cap_witness :
  Z.of_nat (List.length (emitted (main (fun i => i) example_enumerate)))
  <= arg_cap example_enumerate.
Proof.
  apply (main_respects_cap (fun i => i) example_enumerate);
    [reflexivity | cbn; lia | vm_compute; discriminate].
Defined.

(** X14: when [main] enumerates and returns 0, the words it hands out are
    the run of [enumerate_all] over an alphabet without duplicates and a
    valid range, their number is the total it computed, no draw is taken,
    and with an output file the count it reports is that total. *)
Theorem main_enumerates (entropy : nat -> nat) (a : args) :
  arg_show_stats a = false -> arg_sample a <= 0 ->
  status (main entropy a) = Some 0 ->
  exists min_len max_len total,
    resolve_lengths a = Some (min_len, max_len)
    /\ 1 <= min_len <= max_len
    /\ args_charset a <> [] /\ NoDup (args_charset a)
    /\ total_combinations (Z.of_nat (List.length (args_charset a)))
         min_len max_len = Some total
    /\ emitted (main entropy a)
       = Gen.yielded (enumerate_all (args_charset a) min_len max_len)
    /\ Z.of_nat (List.length (emitted (main entropy a))) = total
    /\ draws (main entropy a) = O
    /\ match out_path a with
       | Some path =>
           file (main entropy a)
           = Some (path,
                   Gen.yielded
                     (enumerate_all (args_charset a) min_len max_len))
           /\ printed (main entropy a) = [OutEnumerationComplete total path]
       | None =>
           file (main entropy a) = None
           /\ printed (main entropy a)
              = map OutWord
                  (Gen.yielded
                     (enumerate_all (args_charset a) min_len max_len))
       end.
Proof.
  intros Hs Hsam Hst.
  destruct (main_cases entropy a)
    as [(_ & E)|[(_ & _ & E)|(mn & mx & total & Hr & Hne & Et & Hb)]].
  1-2: rewrite E in Hst; discriminate.
  destruct Hb as [(Hs' & _)|[(_ & Hpos & _)|(_ & _ & E)]];
    [congruence | lia |].
  destruct (main_stream_cases a (args_charset a) mn mx total Hne Et)
    as [(_ & E')|[(_ & _ & _ & _ & _ & E')|[(_ & _ & _ & _ & E')
       |(Hv & _ & _ & Hd & Hem & Hlen & Hout)]]].
  1-3: rewrite E, E' in Hst; discriminate.
  exists mn, mx, total. rewrite E in *.
  split; [exact Hr|]. split; [exact Hv|]. split; [exact Hne|].
  split.
  { unfold args_charset. rewrite build_charset_keep_first.
    apply keep_first_NoDup. }
  split; [exact Et|]. split; [exact Hem|]. split; [exact Hlen|].
  split; [exact Hd|].
  destruct (out_path a) as [path|].
  - destruct Hout as (Hfile & [(_ & _ & Hp)|(_ & Hn & _)]);
      [split; assumption | congruence].
  - destruct Hout as (Hfile & _ & Hp). split; assumption.
Qed.

Lemma main_enumerates_witness :
  exists min_len max_len total,
    resolve_lengths example_enumerate = Some (min_len, max_len)
    /\ total_combinations
         (Z.of_nat (List.length (args_charset example_enumerate)))
         min_len max_len = Some total
    /\ Z.of_nat (List.length (emitted (main (fun i => i) example_enumerate)))
       = total.
Proof.
  destruct (main_enumerates (fun i => i) example_enumerate)
    as (mn & mx & total & Hr & _ & _ & _ & Et & _ & Hlen & _);
    [reflexivity | cbn; lia | vm_compute; reflexivity |].
  exists mn, mx, total. auto.
Defined.

(** X15: with [--sample n], [n > 0], a fixed length and some class
    enabled, [main] returns 0 and hands out exactly [n] words of that
    length over the alphabet after [n] times the length draws, whatever
    the cap, the total and [--force] are. *)
Theorem main_samples (entropy : nat -> nat) (a : args) (length : Z) :
  arg_show_stats a = false -> arg_sample a > 0 ->
  arg_length a = Some length -> args_charset a <> [] ->
  status (main entropy a) = Some 0
  /\ Z.of_nat (List.length (emitted (main entropy a))) = arg_sample a
  /\ Forall (fun w => List.length w = Z.to_nat length
                      /\ Forall (fun c => In c (args_charset a)) w)
       (emitted (main entropy a))
  /\ draws (main entropy a)
     = (Z.to_nat (arg_sample a) * Z.to_nat length)%nat.
Proof.
  intros Hs Hsam HL Hne.
  destruct (main_cases entropy a)
    as [(Hr & _)|[(_ & Hcs & _)|(mn & mx & total & _ & _ & _ & Hb)]].
  - unfold resolve_lengths in Hr. rewrite HL in Hr. discriminate.
  - congruence.
  - destruct Hb as [(Hs' & _)|[(_ & _ & E)|(_ & Hle & _)]];
      [congruence | | lia].
    destruct (main_sample_cases entropy a (args_charset a) Hne)
      as [(HL' & _)|(L & ws & HL' & _ & Hn & Hws & Hst & _ & Hem & Hd)];
      [congruence|].
    rewrite HL in HL'. injection HL' as <-.
    rewrite E, Hem. repeat split; auto. lia.
Qed.

Lemma main_samples_witness :
  status (main (fun i => Nat.mul 3 i) example_sample) = Some 0
  /\ Z.of_nat (List.length (emitted (main (fun i => Nat.mul 3 i)
                                      example_sample)))
     = arg_sample example_sample.
Proof.
  destruct (main_samples (fun i => Nat.mul 3 i) example_sample 3)
    as (Hst & Hn & _);
    [reflexivity | cbn; lia | reflexivity | vm_compute; discriminate |].
  split; assumption.
Defined.

(** X16: with [--show-stats], [main] hands out no word, writes no file and
    takes no draw, whatever the other options are.  When the lengths are
    given and some class is enabled, it returns 0 after printing the
    alphabet with its size, the range and the total, also for an invalid
    range or a total above the cap, provided the two bounds and the total
    have at most 4300 digits; with printable bounds and a longer total it
    prints the first two lines and ends in the escaping [ValueError]; with
    an unprintable bound it prints the first line only and ends
    likewise. *)
Theorem main_show_stats (entropy : nat -> nat) (a : args) :
  arg_show_stats a = true ->
  emitted (main entropy a) = []
  /\ file (main entropy a) = None
  /\ draws (main entropy a) = O
  /\ (forall min_len max_len,
        resolve_lengths a = Some (min_len, max_len) ->
        args_charset a <> [] ->
        exists total,
          total_combinations (Z.of_nat (List.length (args_charset a)))
            min_len max_len = Some total
          /\ (printable min_len -> printable max_len -> printable total ->
              status (main entropy a) = Some 0
              /\ printed (main entropy a)
                 = [OutCharset (Z.of_nat (List.length (args_charset a)))
                      (args_charset a);
                    OutLengthRange min_len max_len;
                    OutTotal total])
          /\ (printable min_len -> printable max_len -> ~ printable total ->
              status (main entropy a) = None
              /\ printed (main entropy a)
                 = [OutCharset (Z.of_nat (List.length (args_charset a)))
                      (args_charset a);
                    OutLengthRange min_len max_len])
          /\ (~ printable min_len \/ ~ printable max_len ->
              status (main entropy a) = None
              /\ printed (main entropy a)
                 = [OutCharset (Z.of_nat (List.length (args_charset a)))
                      (args_charset a)])).
Proof.
  intros Hs.
  destruct (main_cases entropy a)
    as [(Hr & ->)|[(_ & Hcs & ->)|(mn & mx & total & Hr & Hne & Et & Hb)]].
  - repeat split. intros ? ? H. congruence.
  - repeat split. intros ? ? _ H. congruence.
  - destruct Hb as [(_ & ->)|[(Hs' & _)|(Hs' & _)]];
      [|congruence | congruence].
    destruct (main_stats_cases (args_charset a) mn mx total)
      as [(Hmn & Hmx & Ht & ->)|[(Hmn & Hmx & Ht & ->)|(Hb & ->)]];
      (split; [reflexivity|]; split; [reflexivity|];
       split; [reflexivity|]);
      intros mn' mx' Hr' _; rewrite Hr in Hr'; injection Hr' as <- <-;
      exists total; (split; [exact Et|]); cbn; repeat split; tauto.
Qed.

Lemma main_show_stats_witness :
  emitted (main (fun i => i) example_stats) = []
  /\ status (main (fun i => i) example_stats) = Some 0
  /\ draws (main (fun i => i) example_stats) = O.
Proof.
  destruct (main_show_stats (fun i => i) example_stats)
    as (He & _ & Hd & Hp); [reflexivity|].
  destruct (Hp 3 1) as (total & Et & Hok & _);
    [reflexivity | vm_compute; discriminate |].
  assert (E : total = 0) by (vm_compute in Et; congruence).
  destruct Hok as (Hst & _);
    [| | | auto]; subst; unfold printable; vm_compute; reflexivity.
Defined.

(** X17: when [main] is asked to enumerate over a non-empty alphabet, an
    invalid range ends it with the nothing-to-do message, whatever the cap
    is.  A valid range whose total exceeds the cap ends it, without
    [--force], with the refusal message, which carries the total
    [total_combinations] returned and the cap, when both have at most
    4300 digits; when one of them has more, the message cannot be
    formatted and [main] ends in the escaping [ValueError], having
    printed and written nothing. *)
Theorem main_refuses (entropy : nat -> nat) (a : args)
    (min_len max_len total : Z) :
  arg_show_stats a = false -> arg_sample a <= 0 ->
  resolve_lengths a = Some (min_len, max_len) ->
  args_charset a <> [] ->
  total_combinations (Z.of_nat (List.length (args_charset a)))
    min_len max_len = Some total ->
  (min_len < 1 \/ max_len < min_len ->
   main entropy a = fail_with (ErrCap MsgNothingToDo))
  /\ (1 <= min_len <= max_len -> total > arg_cap a -> arg_force a = false ->
      printable total -> printable (arg_cap a) ->
      main entropy a = fail_with (ErrCap (MsgRefusing total (arg_cap a))))
  /\ (1 <= min_len <= max_len -> total > arg_cap a -> arg_force a = false ->
      ~ printable total \/ ~ printable (arg_cap a) ->
      main entropy a = escaped).
Proof.
  intros Hs Hsam Hr Hne Et.
  destruct (main_cases entropy a)
    as [(Hr' & _)|[(_ & Hcs & _)|(mn & mx & t & Hr' & _ & Et' & Hb)]];
    [congruence | congruence |].
  rewrite Hr in Hr'. injection Hr' as <- <-.
  rewrite Et in Et'. injection Et' as <-.
  destruct Hb as [(Hs' & _)|[(_ & Hpos & _)|(_ & _ & E)]];
    [congruence | lia |].
  rewrite E.
  destruct (main_stream_cases a (args_charset a) min_len max_len total Hne Et)
    as [(Hinv & E')|[(Hv & Hgt & Hf & Ht & Hc & E')
       |[(Hv & Hgt & Hf & Hu & E')|(Hv & Hok & _)]]].
  - split; [intros _; exact E' | split; lia].
  - split; [lia|]. split; [intros; exact E' | tauto].
  - split; [lia|]. split; [tauto | intros; exact E'].
  - split; [lia|].
    split; intros _ Hgt Hf; destruct Hok; (lia || congruence).
Qed.

Lemma main_refuses_witness :
  main (fun i => i)
    {| arg_min := None; arg_max := None; arg_length := Some 3;
       arg_lower := false; arg_upper := false; arg_digits := true;
       arg_special := false; arg_extra_special := []; arg_out := None;
       arg_sample := 0; arg_cap := 5; arg_force := false;
       arg_show_stats := false |}
  = fail_with (ErrCap (MsgRefusing 1000 5)).
Proof.
  refine (proj1 (proj2 (main_refuses (fun i => i) _ 3 3 1000 _ _ _ _ _))
            _ _ _ _ _);
    try reflexivity; cbn; try lia; unfold printable; vm_compute;
    (reflexivity || discriminate).
Defined.
